(** * Terminal link handler: local-path patterns and path resolution

    A shallow embedding of
    [src/vs/workbench/parts/terminal/electron-browser/terminalLinkHandler.ts].

    - [JsString]: the JavaScript string operations the handler uses.
    - [RegExp]: the pattern sources of lines 16-27, a reader for the
      pattern syntax they use and the backtracking matcher of ECMAScript
      (continuation style, as the language specification gives it).
    - [Path]: the [path] module ([join], [normalize], [resolve]).
    - the handler itself: [_wrapLinkHandler], [_resolvePath],
      [_handleLocalLink], [_validateLocalLink], the constructor and the two
      registration methods, over an effect trace. *)

From Stdlib Require Import Arith Bool List String Ascii ZArith Lia.
Import ListNotations.

Local Open Scope string_scope.
Local Open Scope list_scope.

(** ** JavaScript strings

    A string is a sequence of code units; the embedding keeps the code
    units below 256, one [ascii] each. *)

Module JsString.

(** [s.charAt(i)]: the one-unit string at index [i], empty out of range. *)
Definition charAt (i : nat) (s : string) : string :=
  match String.get i s with
  | Some c => String c EmptyString
  | None => EmptyString
  end.

(** [s.substring(i)]: the units from index [i] to the end. *)
Fixpoint substring (i : nat) (s : string) : string :=
  match i, s with
  | O, _ => s
  | S _, EmptyString => EmptyString
  | S i', String _ s' => substring i' s'
  end.

(** Truthiness of a string value: every string but the empty one. *)
Definition truthy (s : string) : bool :=
  negb (String.eqb s EmptyString).

(** Truthiness of a property that may be [undefined]. *)
Definition truthy_opt (o : option string) : bool :=
  match o with
  | Some s => truthy s
  | None => false
  end.

(** The double quote, which a literal of this file cannot hold. *)
Definition dquote : string := String "034"%char EmptyString.

End JsString.

(** ** Regular expressions *)

Module RegExp.

(** Members of a character class. *)
Inductive ClassItem : Type :=
| ClassChar (c : ascii)
| ClassRange (lo hi : ascii)
| ClassSpace.

(** The pattern syntax used by the two link patterns. *)
Inductive Regex : Type :=
| Empty
| Char (c : ascii)
| Class (invert : bool) (items : list ClassItem)
| AssertEnd
| Seq (r1 r2 : Regex)
| Disj (r1 r2 : Regex)
| Group (r : Regex)
| Quant (r : Regex) (min : nat) (max : option nat).

(** *** Reading a pattern source *)

Definition PatternSyntaxChar (c : ascii) : bool :=
  existsb (Ascii.eqb c)
    ["^"; "$"; "\"; "."; "*"; "+"; "?"; "("; ")"; "["; "]"; "{"; "}"; "|"]%char.

Definition isAlnum (c : ascii) : bool :=
  let n := nat_of_ascii c in
  (((48 <=? n) && (n <=? 57)) || ((65 <=? n) && (n <=? 90))
   || ((97 <=? n) && (n <=? 122)) || (n =? 95))%nat.

(** One class atom: a plain unit, [\0], [\s], or an escaped punctuation
    unit standing for itself. *)
Definition parseClassAtom (s : list ascii) : option (ClassItem * list ascii) :=
  match s with
  | "\"%char :: "0"%char :: rest => Some (ClassChar zero, rest)
  | "\"%char :: "s"%char :: rest => Some (ClassSpace, rest)
  | "\"%char :: c :: rest =>
      if isAlnum c then None else Some (ClassChar c, rest)
  | "\"%char :: [] => None
  | c :: rest => Some (ClassChar c, rest)
  | [] => None
  end.

Fixpoint parseClassRanges (fuel : nat) (s : list ascii)
  : option (list ClassItem * list ascii) :=
  match fuel with
  | O => None
  | S fuel' =>
      match s with
      | "]"%char :: rest => Some ([], rest)
      | _ =>
          match parseClassAtom s with
          | Some (ClassChar lo, "-"%char :: rest) =>
              match rest with
              | "]"%char :: _ =>
                  match parseClassRanges fuel' rest with
                  | Some (items, rest') =>
                      Some (ClassChar lo :: ClassChar "-" :: items, rest')
                  | None => None
                  end
              | _ =>
                  match parseClassAtom rest with
                  | Some (ClassChar hi, rest') =>
                      match parseClassRanges fuel' rest' with
                      | Some (items, rest'') =>
                          Some (ClassRange lo hi :: items, rest'')
                      | None => None
                      end
                  | _ => None
                  end
              end
          | Some (a, rest) =>
              match parseClassRanges fuel' rest with
              | Some (items, rest') => Some (a :: items, rest')
              | None => None
              end
          | None => None
          end
      end
  end.

Definition parseQuantifier (r : Regex) (s : list ascii) : Regex * list ascii :=
  match s with
  | "*"%char :: rest => (Quant r 0 None, rest)
  | "+"%char :: rest => (Quant r 1 None, rest)
  | "?"%char :: rest => (Quant r 0 (Some 1), rest)
  | _ => (r, s)
  end.

Definition seq (r1 r2 : Regex) : Regex :=
  match r2 with
  | Empty => r1
  | _ => Seq r1 r2
  end.

(** Disjunction ::= Alternative ( | Disjunction )?,
    Alternative ::= Term*, Term ::= [$] or Atom Quantifier?. *)
Fixpoint parseDisjunction (fuel : nat) (s : list ascii)
  : option (Regex * list ascii) :=
  match fuel with
  | O => None
  | S fuel' =>
      match parseAlternative fuel' s with
      | Some (r1, "|"%char :: rest) =>
          match parseDisjunction fuel' rest with
          | Some (r2, rest') => Some (Disj r1 r2, rest')
          | None => None
          end
      | other => other
      end
  end
with parseAlternative (fuel : nat) (s : list ascii)
  : option (Regex * list ascii) :=
  match fuel with
  | O => None
  | S fuel' =>
      match s with
      | [] => Some (Empty, s)
      | "|"%char :: _ => Some (Empty, s)
      | ")"%char :: _ => Some (Empty, s)
      | _ =>
          match parseTerm fuel' s with
          | Some (t, rest) =>
              match parseAlternative fuel' rest with
              | Some (r, rest') => Some (seq t r, rest')
              | None => None
              end
          | None => None
          end
      end
  end
with parseTerm (fuel : nat) (s : list ascii)
  : option (Regex * list ascii) :=
  match fuel with
  | O => None
  | S fuel' =>
      match s with
      | "$"%char :: rest => Some (AssertEnd, rest)
      | "("%char :: rest =>
          match parseDisjunction fuel' rest with
          | Some (r, ")"%char :: rest') => Some (parseQuantifier (Group r) rest')
          | _ => None
          end
      | "["%char :: "^"%char :: rest =>
          match parseClassRanges (S (List.length rest)) rest with
          | Some (items, rest') => Some (parseQuantifier (Class true items) rest')
          | None => None
          end
      | "["%char :: rest =>
          match parseClassRanges (S (List.length rest)) rest with
          | Some (items, rest') => Some (parseQuantifier (Class false items) rest')
          | None => None
          end
      | "\"%char :: c :: rest =>
          if isAlnum c then None else Some (parseQuantifier (Char c) rest)
      | c :: rest =>
          if PatternSyntaxChar c then None
          else Some (parseQuantifier (Char c) rest)
      | [] => None
      end
  end.

(** [new RegExp(source)], without flags. *)
Definition RegExp_new (source : string) : option Regex :=
  let s := list_ascii_of_string source in
  match parseDisjunction (4 * List.length s + 4) s with
  | Some (r, []) => Some r
  | _ => None
  end.

(** *** Matching

    The matcher of the language specification: a pattern is compiled to a
    function from a state and a continuation to a result.  A state is the
    part of the input still to be read (the end index counted from the
    end); failure is [None]. *)

Definition State := list ascii.
Definition MatcherContinuation := State -> option State.
Definition Matcher := State -> MatcherContinuation -> option State.

(** The units [\s] stands for, among those below 256. *)
Definition isWhiteSpace (c : ascii) : bool :=
  existsb (Nat.eqb (nat_of_ascii c)) [9; 10; 11; 12; 13; 32; 160].

Definition classItemMatches (c : ascii) (i : ClassItem) : bool :=
  match i with
  | ClassChar d => Ascii.eqb c d
  | ClassRange lo hi =>
      (nat_of_ascii lo <=? nat_of_ascii c)%nat
      && (nat_of_ascii c <=? nat_of_ascii hi)%nat
  | ClassSpace => isWhiteSpace c
  end.

Definition classMatches (invert : bool) (items : list ClassItem) (c : ascii)
  : bool :=
  xorb invert (existsb (classItemMatches c) items).

(** CharacterSetMatcher: read one unit that satisfies [p]. *)
Definition CharacterSetMatcher (p : ascii -> bool) : Matcher :=
  fun x c =>
    match x with
    | ch :: y => if p ch then c y else None
    | [] => None
    end.

(** RepeatMatcher(m, min, max, greedy = true, x, c).  An iteration that
    reads nothing is refused once [min] is zero, so every iteration lowers
    [min] or shortens the input.  The recursion is on [fuel], which
    [compile] sets to [min] plus the length of the input; more fuel gives
    the same result ([RepeatMatcher_fuel] below). *)
Fixpoint RepeatMatcher (m : Matcher) (fuel : nat) (min : nat)
  (max : option nat) (x : State) (c : MatcherContinuation) : option State :=
  match max with
  | Some O => c x
  | _ =>
      match fuel with
      | O => c x
      | S fuel' =>
          let d : MatcherContinuation := fun y =>
            if (min =? 0)%nat && (List.length y =? List.length x)%nat
            then None
            else RepeatMatcher m fuel' (Nat.pred min)
                   (option_map Nat.pred max) y c in
          if (min =? 0)%nat then
            match m x d with
            | Some z => Some z
            | None => c x
            end
          else m x d
      end
  end.

(** The continuation [d] of [RepeatMatcher], by name. *)
Definition iterate (m : Matcher) (fuel min : nat) (max : option nat)
  (x : State) (c : MatcherContinuation) : MatcherContinuation :=
  fun y =>
    if (min =? 0)%nat && (List.length y =? List.length x)%nat
    then None
    else RepeatMatcher m fuel (Nat.pred min) (option_map Nat.pred max) y c.

Fixpoint compile (r : Regex) : Matcher :=
  match r with
  | Empty => fun x c => c x
  | Char ch => CharacterSetMatcher (Ascii.eqb ch)
  | Class invert items => CharacterSetMatcher (classMatches invert items)
  | AssertEnd => fun x c => match x with [] => c x | _ :: _ => None end
  | Seq r1 r2 => fun x c => compile r1 x (fun y => compile r2 y c)
  | Disj r1 r2 => fun x c =>
      match compile r1 x c with
      | Some z => Some z
      | None => compile r2 x c
      end
  | Group r' => compile r'
  | Quant r' min max => fun x c =>
      RepeatMatcher (compile r') (min + List.length x) min max x c
  end.

(** The result of [exec]: where the match starts and the matched text. *)
Record MatchResult : Type := {
  index : nat;
  match0 : string
}.

(** [regex.exec(input)] without the global flag: the first start index,
    from 0 up to the length of the input, at which the pattern matches. *)
Fixpoint execFrom (m : Matcher) (i : nat) (x : State) : option MatchResult :=
  match m x (fun y => Some y) with
  | Some y =>
      Some {| index := i;
              match0 := string_of_list_ascii
                          (firstn (List.length x - List.length y) x) |}
  | None =>
      match x with
      | [] => None
      | _ :: x' => execFrom m (S i) x'
      end
  end.

Definition exec (r : Regex) (input : string) : option MatchResult :=
  execFrom (compile r) 0 (list_ascii_of_string input).

(** What a pattern can read, whatever the order of the search: [Matches r
    x y] when [r] can take the matcher from state [x] to state [y].  The
    matcher only ever finds such steps ([compile_sound] below). *)
Inductive Matches : Regex -> State -> State -> Prop :=
| MatchesEmpty x : Matches Empty x x
| MatchesChar ch x : Matches (Char ch) (ch :: x) x
| MatchesClass invert items ch x :
    classMatches invert items ch = true ->
    Matches (Class invert items) (ch :: x) x
| MatchesEnd : Matches AssertEnd [] []
| MatchesSeq r1 r2 x y z :
    Matches r1 x y -> Matches r2 y z -> Matches (Seq r1 r2) x z
| MatchesDisjL r1 r2 x y : Matches r1 x y -> Matches (Disj r1 r2) x y
| MatchesDisjR r1 r2 x y : Matches r2 x y -> Matches (Disj r1 r2) x y
| MatchesGroup r x y : Matches r x y -> Matches (Group r) x y
| MatchesQuantMax r min x : Matches (Quant r min (Some 0)) x x
| MatchesQuantStop r max x : Matches (Quant r 0 max) x x
| MatchesQuantStep r min max x y z :
    max <> Some 0 ->
    Matches r x y ->
    Matches (Quant r (Nat.pred min) (option_map Nat.pred max)) y z ->
    Matches (Quant r min max) x z.

(** A matcher that finds only what [r] can read. *)
Definition sound (m : Matcher) (r : Regex) : Prop :=
  forall x c z, m x c = Some z -> exists y, Matches r x y /\ c y = Some z.

(** A matcher that asks its continuation about states no longer than its
    own only. *)
Definition forward (m : Matcher) : Prop :=
  forall x c1 c2,
    (forall y, List.length y <= List.length x -> c1 y = c2 y) ->
    m x c1 = m x c2.

(** *** The pattern sources (lines 16-27)

    Each literal below is the value of the string literal of the source,
    where the source writes two backslashes for one backslash and a
    backslash before the single quote. *)

Definition pathPrefix : string := "(\.\.?|\~)".
Definition pathSeparatorClause : string := "\/".
Definition excludedPathCharactersClause : string :=
  "[^\0\s!$`&*()\[\]+'" ++ JsString.dquote ++ ":;]".
Definition escapedExcludedPathCharactersClause : string :=
  "(\\s|\\!|\\$|\\`|\\&|\\*|(|)|\+)".

Definition UNIX_LIKE_LOCAL_LINK_SOURCE : string :=
  "(" ++ pathPrefix ++ "?(" ++ pathSeparatorClause ++ "("
  ++ excludedPathCharactersClause ++ "|"
  ++ escapedExcludedPathCharactersClause ++ ")+)+)".

Definition winPathPrefix : string := "([a-zA-Z]:|\.\.?|\~)".
Definition winPathSeparatorClause : string := "(\\|\/)".
Definition winExcludedPathCharactersClause : string :=
  "[^\0<>\?\|\/\s!$`&*()\[\]+'" ++ JsString.dquote ++ ":;]".

Definition WINDOWS_LOCAL_LINK_SOURCE : string :=
  "(" ++ winPathPrefix ++ "?(" ++ winPathSeparatorClause ++ "("
  ++ winExcludedPathCharactersClause ++ ")+)+)".

(** The units a character-class clause accepts. *)
Definition pathCharacter (clause : string) (ch : ascii) : bool :=
  match RegExp_new clause with
  | Some (Class invert items) => classMatches invert items ch
  | _ => false
  end.

(** A unit of the excluded set of a clause: one the clause refuses. *)
Definition excluded (clause : string) (ch : ascii) : bool :=
  negb (pathCharacter clause ch).

(** Whether a text holds an excluded unit that no backslash escapes; a
    backslash and the unit after it form one escape. *)
Fixpoint hasUnescapedExcluded (clause : string) (s : list ascii) : bool :=
  match s with
  | [] => false
  | "\"%char :: _ :: rest => hasUnescapedExcluded clause rest
  | ch :: rest => excluded clause ch || hasUnescapedExcluded clause rest
  end.

(** A pattern whose atoms read only units that satisfy [P]. *)
Fixpoint reads (P : ascii -> bool) (r : Regex) : Prop :=
  match r with
  | Empty => True
  | Char ch => P ch = true
  | Class invert items =>
      forall ch, classMatches invert items ch = true -> P ch = true
  | AssertEnd => True
  | Seq r1 r2 => reads P r1 /\ reads P r2
  | Disj r1 r2 => reads P r1 /\ reads P r2
  | Group r' => reads P r'
  | Quant r' _ _ => reads P r'
  end.

(** The units a match of the Unix-like pattern can hold: those the
    excluded-characters clause accepts, and four more. *)
Definition unixUnit (ch : ascii) : bool :=
  pathCharacter excludedPathCharactersClause ch
  || existsb (Ascii.eqb ch) ["+"; "!"; "`"; "&"]%char.

(** The compiled patterns; [UNIX_LIKE_LOCAL_LINK_REGEX_source] and
    [WINDOWS_LOCAL_LINK_REGEX_source] below relate them to the sources. *)
Definition UNIX_LIKE_LOCAL_LINK_REGEX : Regex :=
  Eval vm_compute in
    match RegExp_new UNIX_LIKE_LOCAL_LINK_SOURCE with
    | Some r => r
    | None => Empty
    end.

Definition WINDOWS_LOCAL_LINK_REGEX : Regex :=
  Eval vm_compute in
    match RegExp_new WINDOWS_LOCAL_LINK_SOURCE with
    | Some r => r
    | None => Empty
    end.

End RegExp.

(** ** The [path] module

    The handler calls [path.join], [path.normalize] and [path.resolve] of
    the host's [path] module, which is not part of the repository.  The
    handler is modelled over any such module; [posix] is the documented
    behaviour of the POSIX flavour. *)

Module Path.

Record PathModule : Type := {
  join : string -> string -> string;
  normalize : string -> string;
  resolve : string -> string
}.

Definition slash : ascii := "/"%char.

(** The segments between slashes. *)
Fixpoint segments (cur : list ascii) (s : list ascii) : list (list ascii) :=
  match s with
  | [] => [rev cur]
  | c :: s' =>
      if Ascii.eqb c slash then rev cur :: segments [] s'
      else segments (c :: cur) s'
  end.

(** One segment pushed on the normalised segments so far (last first):
    empty and [.] segments vanish, [..] removes the segment before it, and
    is kept above the start of a relative path only. *)
Definition pushSegment (allowAboveRoot : bool) (stack : list (list ascii))
  (seg : list ascii) : list (list ascii) :=
  match seg with
  | [] => stack
  | ["."%char] => stack
  | ["."%char; "."%char] =>
      match stack with
      | [] => if allowAboveRoot then [seg] else []
      | top :: below =>
          match top with
          | ["."%char; "."%char] => seg :: stack
          | _ => below
          end
      end
  | _ => seg :: stack
  end.

Fixpoint joinSegments (segs : list (list ascii)) : list ascii :=
  match segs with
  | [] => []
  | [seg] => seg
  | seg :: rest => seg ++ slash :: joinSegments rest
  end.

Definition normalizeStringPosix (path : list ascii) (allowAboveRoot : bool)
  : list ascii :=
  joinSegments
    (rev (fold_left (pushSegment allowAboveRoot) (segments [] path) [])).

Definition isAbsolute (path : list ascii) : bool :=
  match path with
  | c :: _ => Ascii.eqb c slash
  | [] => false
  end.

Definition posix_normalize (path : string) : string :=
  match list_ascii_of_string path with
  | [] => "."
  | p =>
      let absolute := isAbsolute p in
      let trailingSeparator := isAbsolute (rev p) in
      let body := normalizeStringPosix p (negb absolute) in
      let body :=
        match body with
        | [] => if absolute then [] else ["."%char]
        | _ => body
        end in
      let body :=
        match body with
        | [] => []
        | _ => if trailingSeparator then body ++ [slash] else body
        end in
      string_of_list_ascii (if absolute then slash :: body else body)
  end.

Definition posix_join (a b : string) : string :=
  match a, b with
  | EmptyString, EmptyString => "."
  | EmptyString, _ => posix_normalize b
  | _, EmptyString => posix_normalize a
  | _, _ => posix_normalize (a ++ "/" ++ b)
  end.

(** [path.resolve(p)] in the working directory [cwd]. *)
Definition posix_resolve (cwd : string) (p : string) : string :=
  let resolvedPath :=
    list_ascii_of_string
      (match p with
       | EmptyString => cwd ++ "/"
       | _ =>
           if isAbsolute (list_ascii_of_string p) then p ++ "/"
           else cwd ++ "/" ++ p ++ "/"
       end) in
  let absolute := isAbsolute resolvedPath in
  match normalizeStringPosix resolvedPath (negb absolute) with
  | [] => if absolute then "/" else "."
  | body => string_of_list_ascii (if absolute then slash :: body else body)
  end.

Definition posix (cwd : string) : PathModule := {|
  join := posix_join;
  normalize := posix_normalize;
  resolve := posix_resolve cwd
|}.

End Path.

(** ** The handler *)

Import JsString RegExp Path.

(** [platform.Platform]; the source names [Mac] and [Windows]. *)
Inductive Platform : Type := Web | Mac | Linux | Windows.

Definition Platform_eqb (a b : Platform) : bool :=
  match a, b with
  | Web, Web | Mac, Mac | Linux, Linux | Windows, Windows => true
  | _, _ => false
  end.

(** The values a handler or a resolution yields. *)
Inductive JsValue : Type :=
| undefined
| null
| JsBool (b : bool)
| JsString (s : string).

Definition toBoolean (v : JsValue) : bool :=
  match v with
  | undefined => false
  | null => false
  | JsBool b => b
  | JsString s => truthy s
  end.

(** The fields of a [MouseEvent] the handler reads. *)
Record MouseEvent : Type := {
  metaKey : bool;
  ctrlKey : bool
}.

(** An [HTMLElement], by identity. *)
Definition HTMLElement := nat.

(** What the handler does to its collaborators, in order. *)
Inductive Effect : Type :=
| PreventDefault
| FileExists (path : string)
| OpenEditor (resource : string)
| AddTooltipEventListeners (element : HTMLElement)
| ValidationCallback (isValid : bool)
| Foreign (what : string).

(** How a call ends: with a value, or with an exception thrown. *)
Inductive Completion (A : Type) : Type :=
| Normal (a : A)
| Throw (error : string).

Arguments Normal {A} a.
Arguments Throw {A} error.

(** A computation: its effects and how it ends.  A promise is modelled by
    the value it settles with: the single-threaded host runs each chain to
    its end, and no two chains of the handler share state. *)
Definition Eff (A : Type) : Type := (list Effect * Completion A)%type.

Definition ret {A : Type} (a : A) : Eff A := ([], Normal a).

Definition throw {A : Type} (error : string) : Eff A := ([], Throw error).

Definition emit (e : Effect) : Eff unit := ([e], Normal tt).

Definition bind {A B : Type} (m : Eff A) (f : A -> Eff B) : Eff B :=
  match m with
  | (t, Normal a) => let (t', c) := f a in (t ++ t', c)
  | (t, Throw e) => (t, Throw e)
  end.

Notation "x <- m ;; k" := (bind m (fun x => k))
  (at level 61, m at next level, right associativity).
Notation "m ;;; k" := (bind m (fun _ => k))
  (at level 61, right associativity).

Definition effects {A : Type} (m : Eff A) : list Effect := fst m.
Definition completion {A : Type} (m : Eff A) : Completion A := snd m.

(** [process.env], as far as the handler reads it. *)
Record ProcessEnv : Type := {
  HOMEDRIVE : option string;
  HOMEPATH : option string
}.

(** What the file system holds at a path. *)
Inductive FsEntry : Type :=
| RegularFile
| NotAFile
| StatFails.

Definition FileSystem := string -> FsEntry.

(** The workspace, as far as the handler reads it:
    [getWorkspace().resource.fsPath]. *)
Record Workspace : Type := {
  resource_fsPath : string
}.

(** [IWorkspaceContextService], whose declaration is outside the sources
    at hand.  [hasWorkspace] is the truthiness of the property the handler
    reads (it reads it without calling it); [getWorkspace] is what the
    call returns, [None] for [null]. *)
Record IWorkspaceContextService : Type := {
  hasWorkspace : bool;
  getWorkspace : option Workspace
}.

(** The process the handler runs in. *)
Record Host : Type := {
  env : ProcessEnv;
  path : PathModule;
  fileSystem : FileSystem
}.

(** The fields of [TerminalLinkHandler] that decide its behaviour; the
    widget manager, the terminal and the editor service are collaborators
    whose calls are effects. *)
Record TerminalLinkHandler : Type := {
  _platform : Platform;
  _contextService : IWorkspaceContextService
}.

(** Modelled from the spec: [pfs.fileExists] is outside the sources at
    hand.  The existence check answers [true] for an existing regular
    file; a path that does not exist and a check that fails both answer
    [false], and the promise never rejects. *)
Definition pfs_fileExists (fs : FileSystem) (p : string) : Eff bool :=
  emit (FileExists p) ;;;
  ret (match fs p with
       | RegularFile => true
       | NotAFile => false
       | StatFails => false
       end).

Definition CUSTOM_LINK_PRIORITY : Z := (-1)%Z.
Definition LOCAL_LINK_PRIORITY : Z := (-2)%Z.

Definition XtermLinkMatcherHandler : Type :=
  MouseEvent -> string -> Eff JsValue.

Definition XtermLinkMatcherValidationCallback : Type :=
  string -> HTMLElement -> Eff unit.

(** [_wrapLinkHandler] (lines 71-80). *)
Definition _wrapLinkHandler (self : TerminalLinkHandler)
  (handler : string -> Eff JsValue) : XtermLinkMatcherHandler :=
  fun event uri =>
    if (if Platform_eqb (_platform self) Mac
        then negb (metaKey event)
        else negb (ctrlKey event))
    then emit PreventDefault ;;; ret (JsBool false)
    else handler uri.

(** [_localLinkRegex] (lines 82-87). *)
Definition _localLinkRegex (self : TerminalLinkHandler) : Regex :=
  if Platform_eqb (_platform self) Windows
  then WINDOWS_LOCAL_LINK_REGEX
  else UNIX_LIKE_LOCAL_LINK_REGEX.

(** One step of [_resolvePath]: it returns early with a settled value,
    goes on with a link, or throws. *)
Inductive Step : Type :=
| Return (v : JsValue)
| Continue (link : string)
| Raise (error : string).

(** Lines 135-140: [~] becomes HOMEDRIVE, a backslash, HOMEPATH. *)
Definition resolveHome (e : ProcessEnv) (link : string) : Step :=
  if String.eqb (charAt 0 link) "~" then
    if negb (truthy_opt (HOMEDRIVE e)) || negb (truthy_opt (HOMEPATH e))
    then Return undefined
    else
      match HOMEDRIVE e, HOMEPATH e with
      | Some homedrive, Some homepath =>
          Continue (homedrive ++ "\" ++ (homepath ++ substring 1 link))
      | _, _ => Return undefined
      end
  else Continue link.

(** Lines 143-149, and again lines 152-158: a link that starts with a dot
    is joined to the workspace path. *)
Definition resolveWorkspacePath (P : PathModule)
  (ctx : IWorkspaceContextService) (link : string) : Step :=
  if String.eqb (charAt 0 link) "." then
    if negb (hasWorkspace ctx) then Return undefined
    else
      match getWorkspace ctx with
      | Some ws => Continue (join P (resource_fsPath ws) link)
      | None => Raise "TypeError"
      end
  else Continue link.

(** Lines 160-166. *)
Definition openIfExists (h : Host) (link : string) : Eff JsValue :=
  isFile <- pfs_fileExists (fileSystem h) link ;;
  if negb isFile then ret null else ret (JsString link).

(** [_resolvePath] (lines 132-167). *)
Definition _resolvePath (h : Host) (self : TerminalLinkHandler)
  (link : string) : Eff JsValue :=
  match (if Platform_eqb (_platform self) Windows
         then resolveHome (env h) link
         else resolveWorkspacePath (path h) (_contextService self) link) with
  | Return v => ret v
  | Raise e => throw e
  | Continue link =>
      match resolveWorkspacePath (path h) (_contextService self) link with
      | Return v => ret v
      | Raise e => throw e
      | Continue link => openIfExists h link
      end
  end.

(** [_addTooltipEventListeners] (lines 113-130): the listeners and their
    timer belong to the element; here the call is one effect. *)
Definition _addTooltipEventListeners (element : HTMLElement) : Eff unit :=
  emit (AddTooltipEventListeners element).

(** [_handleLocalLink] (lines 89-97). *)
Definition _handleLocalLink (h : Host) (self : TerminalLinkHandler)
  (link : string) : Eff JsValue :=
  resolvedLink <- _resolvePath h self link ;;
  if negb (toBoolean resolvedLink) then ret undefined
  else
    match resolvedLink with
    | JsString p =>
        emit (OpenEditor (normalize (path h) (resolve (path h) p))) ;;;
        ret undefined
    | _ => ret undefined
    end.

(** [_validateLocalLink] (lines 99-106). *)
Definition _validateLocalLink (h : Host) (self : TerminalLinkHandler)
  : XtermLinkMatcherValidationCallback :=
  fun link element =>
    resolvedLink <- _resolvePath h self link ;;
    (if toBoolean resolvedLink then _addTooltipEventListeners element
     else ret tt) ;;;
    emit (ValidationCallback (negb (negb (toBoolean resolvedLink)))).

(** [_validateWebLink] (lines 108-111). *)
Definition _validateWebLink : XtermLinkMatcherValidationCallback :=
  fun link element =>
    _addTooltipEventListeners element ;;;
    emit (ValidationCallback true).

(** The terminal ([_xterm], of type [any]): what the handler has set and
    registered on it. *)
Record LinkMatcherOptions : Type := {
  matchIndex : option nat;
  validationCallback : option XtermLinkMatcherValidationCallback;
  priority : Z
}.

Record LinkMatcher : Type := {
  matcherId : nat;
  regex : Regex;
  handler : XtermLinkMatcherHandler;
  options : LinkMatcherOptions
}.

Record Xterm : Type := {
  hypertextLinkHandler : option XtermLinkMatcherHandler;
  hypertextValidationCallback : option XtermLinkMatcherValidationCallback;
  linkMatchers : list LinkMatcher;
  nextLinkMatcherId : nat
}.

Definition setHypertextLinkHandler (x : Xterm) (h : XtermLinkMatcherHandler)
  : Xterm :=
  {| hypertextLinkHandler := Some h;
     hypertextValidationCallback := hypertextValidationCallback x;
     linkMatchers := linkMatchers x;
     nextLinkMatcherId := nextLinkMatcherId x |}.

Definition setHypertextValidationCallback (x : Xterm)
  (cb : XtermLinkMatcherValidationCallback) : Xterm :=
  {| hypertextLinkHandler := hypertextLinkHandler x;
     hypertextValidationCallback := Some cb;
     linkMatchers := linkMatchers x;
     nextLinkMatcherId := nextLinkMatcherId x |}.

Definition registerLinkMatcher (x : Xterm) (r : Regex)
  (h : XtermLinkMatcherHandler) (o : LinkMatcherOptions) : Xterm * nat :=
  ({| hypertextLinkHandler := hypertextLinkHandler x;
      hypertextValidationCallback := hypertextValidationCallback x;
      linkMatchers :=
        linkMatchers x
        ++ [{| matcherId := nextLinkMatcherId x; regex := r;
               handler := h; options := o |}];
      nextLinkMatcherId := S (nextLinkMatcherId x) |},
   nextLinkMatcherId x).

(** The constructor (lines 38-49). *)
Definition constructor (self : TerminalLinkHandler) (_xterm : Xterm) : Xterm :=
  let _xterm :=
    setHypertextLinkHandler _xterm
      (_wrapLinkHandler self (fun _ => ret (JsBool true))) in
  setHypertextValidationCallback _xterm _validateWebLink.

(** [registerCustomLinkHandler] (lines 51-57). *)
Definition registerCustomLinkHandler (self : TerminalLinkHandler)
  (_xterm : Xterm) (r : Regex) (handler : string -> Eff JsValue)
  (matchIndex : option nat)
  (validationCallback : option XtermLinkMatcherValidationCallback)
  : Xterm * nat :=
  registerLinkMatcher _xterm r (_wrapLinkHandler self handler)
    {| matchIndex := matchIndex;
       validationCallback := validationCallback;
       priority := CUSTOM_LINK_PRIORITY |}.

(** [registerLocalLinkHandler] (lines 59-69). *)
Definition registerLocalLinkHandler (h : Host) (self : TerminalLinkHandler)
  (_xterm : Xterm) : Xterm * nat :=
  let wrappedHandler :=
    _wrapLinkHandler self
      (fun url => _handleLocalLink h self url ;;; ret undefined) in
  registerLinkMatcher _xterm (_localLinkRegex self) wrappedHandler
    {| matchIndex := Some 1;
       validationCallback := Some (_validateLocalLink h self);
       priority := LOCAL_LINK_PRIORITY |}.

(** ** The resolver with the second dot check removed

    Section 4.3 of the design notes lets an implementer drop step 3, the
    dot check after the platform branch.  This is that resolver: steps 1,
    2 and 4 of [_resolvePath]. *)
Definition _resolvePath_collapsed (h : Host) (self : TerminalLinkHandler)
  (link : string) : Eff JsValue :=
  match (if Platform_eqb (_platform self) Windows
         then resolveHome (env h) link
         else resolveWorkspacePath (path h) (_contextService self) link) with
  | Return v => ret v
  | Raise e => throw e
  | Continue link => openIfExists h link
  end.

(** The other way to check once: the check of the branch off Windows is
    dropped, the one after the platform branch is kept. *)
Definition _resolvePath_single_check (h : Host) (self : TerminalLinkHandler)
  (link : string) : Eff JsValue :=
  match (if Platform_eqb (_platform self) Windows
         then resolveHome (env h) link
         else Continue link) with
  | Return v => ret v
  | Raise e => throw e
  | Continue link =>
      match resolveWorkspacePath (path h) (_contextService self) link with
      | Return v => ret v
      | Raise e => throw e
      | Continue link => openIfExists h link
      end
  end.

(** ** Concrete hosts and handlers used in the examples *)

Definition windowsHome : ProcessEnv :=
  {| HOMEDRIVE := Some "C:"; HOMEPATH := Some "\Users\u" |}.

Definition noHome : ProcessEnv :=
  {| HOMEDRIVE := None; HOMEPATH := None |}.

Definition everythingExists : FileSystem := fun _ => RegularFile.

Definition hostWith (e : ProcessEnv) (fs : FileSystem) : Host :=
  {| env := e; path := posix "/"; fileSystem := fs |}.

Definition noWorkspace : IWorkspaceContextService :=
  {| hasWorkspace := false; getWorkspace := None |}.

Definition projectWorkspace : IWorkspaceContextService :=
  {| hasWorkspace := true;
     getWorkspace := Some {| resource_fsPath := "/home/u/project" |} |}.

Definition handlerOn (p : Platform) (ctx : IWorkspaceContextService)
  : TerminalLinkHandler :=
  {| _platform := p; _contextService := ctx |}.

Definition freshXterm : Xterm :=
  {| hypertextLinkHandler := None;
     hypertextValidationCallback := None;
     linkMatchers := [];
     nextLinkMatcherId := 0 |}.

Definition plainClick : MouseEvent := {| metaKey := false; ctrlKey := false |}.

(** What a resolution settles with once the path [p] has been checked. *)
Definition settled (h : Host) (p : string) : JsValue :=
  match fileSystem h p with
  | RegularFile => JsString p
  | NotAFile => null
  | StatFails => null
  end.


(** The workspace root, when there is one, is an absolute POSIX path. *)
Definition absoluteRoot (ctx : IWorkspaceContextService) : Prop :=
  forall ws, getWorkspace ctx = Some ws ->
    charAt 0 (resource_fsPath ws) = "/".

(** ** The parts of the two patterns

    The sources build each pattern from clauses; these are the clauses as
    patterns of their own ([UNIX_LIKE_LOCAL_LINK_REGEX_parts] and
    [WINDOWS_LOCAL_LINK_REGEX_parts] below put them together again). *)

Definition pattern (source : string) : Regex :=
  match RegExp_new source with
  | Some r => r
  | None => Empty
  end.

Definition unixPrefix : Regex := Eval vm_compute in pattern pathPrefix.

Definition unixClass : Regex :=
  Eval vm_compute in pattern excludedPathCharactersClause.

Definition unixEscaped : Regex :=
  Eval vm_compute in pattern escapedExcludedPathCharactersClause.

(** '(' + excluded + '|' + escaped + ')' *)
Definition unixContentGroup : Regex := Group (Disj unixClass unixEscaped).

(** '(' + separator + content + '+)' *)
Definition unixSeparatorGroup : Regex :=
  Group (Seq (Char "/") (Quant unixContentGroup 1 None)).

Definition winPrefix : Regex := Eval vm_compute in pattern winPathPrefix.

Definition winSeparator : Regex :=
  Eval vm_compute in pattern winPathSeparatorClause.

Definition winClass : Regex :=
  Eval vm_compute in pattern winExcludedPathCharactersClause.

Definition winContentGroup : Regex := Group winClass.

Definition winSeparatorGroup : Regex :=
  Group (Seq winSeparator (Quant winContentGroup 1 None)).

(** The units the content of a group of the Unix-like pattern reads one
    by one: those the excluded-characters clause accepts, and the plus
    sign. *)
Definition unixContent (ch : ascii) : bool :=
  pathCharacter excludedPathCharactersClause ch || Ascii.eqb ch "+".

(** The units the content of a group of the Windows pattern reads. *)
Definition winContent (ch : ascii) : bool :=
  pathCharacter winExcludedPathCharactersClause ch.

(** A text that does not go on with a unit that satisfies [p]. *)
Definition stopsAt (p : ascii -> bool) (rest : list ascii) : Prop :=
  match rest with
  | [] => True
  | ch :: _ => p ch = false
  end.

(** A unit at which no match of the Unix-like pattern starts. *)
Definition unixPlain (ch : ascii) : bool :=
  negb (existsb (Ascii.eqb ch) ["/"; "."; "~"]%char).

(** The prefixes of the Unix-like pattern, the empty one included. *)
Definition unixPrefixes : list (list ascii) :=
  [[]; ["."]; ["."; "."]; ["~"]]%char.

(** The units of the drive-letter class of the Windows prefix. *)
Definition driveLetter (ch : ascii) : bool :=
  classMatches false [ClassRange "a" "z"; ClassRange "A" "Z"] ch.

(** The prefixes of the Windows pattern: those of the Unix-like pattern,
    and a drive letter with its colon. *)
Definition winPrefixes (prefix : list ascii) : Prop :=
  In prefix unixPrefixes
  \/ exists l, driveLetter l = true /\ prefix = [l; ":"%char].

(** A unit at which no match of the Windows pattern starts, as long as no
    colon follows it. *)
Definition winPlain (ch : ascii) : bool :=
  negb (existsb (Ascii.eqb ch) ["\"; "/"; "."; "~"; ":"]%char).

(** Runs of content, each after a slash. *)
Definition slashed (runs : list (list ascii)) : list ascii :=
  List.concat (map (cons "/"%char) runs).

(** A text at which the groups of the Windows pattern stop: it does not
    go on with a content unit, nor with a slash and a content unit. *)
Definition winStops (rest : list ascii) : Prop :=
  match rest with
  | [] => True
  | h :: t => winContent h = false
              /\ (h = "/"%char -> stopsAt winContent t)
  end.

(** The units a match of the Windows pattern can hold: those the
    excluded-characters clause accepts, the slash and the colon. *)
Definition winUnit (ch : ascii) : bool :=
  winContent ch || existsb (Ascii.eqb ch) ["/"; ":"]%char.

(** Units that both clauses exclude and no other part of either pattern
    reads: NUL, white space, and the marks listed. *)
Definition excludedEverywhere (ch : ascii) : bool :=
  isWhiteSpace ch
  || existsb (Ascii.eqb ch)
       (zero :: list_ascii_of_string ("$*()[]';" ++ JsString.dquote)).

(** ** The tooltip listeners (lines 113-130), with their timers

    [_addTooltipEventListeners] above stands for the call; this is what
    the call sets up.  Time is a count of milliseconds; the host keeps the
    pending timers, and an event is a pointer entering the element, the
    pointer leaving it, or time passing. *)

Module Tooltip.

(** The fields of the element that the timer callback reads. *)
Record Element : Type := {
  offsetLeft : Z;
  offsetTop : Z
}.

(** The calls on the widget manager. *)
Inductive WidgetCall : Type :=
| showMessage (left top : Z) (text : string)
| closeMessage.

(** A timer set by [setTimeout]: its id, when it is due, and what its
    callback does. *)
Record Timer : Type := {
  timerId : nat;
  due : nat;
  callback : list WidgetCall
}.

Record Timers : Type := {
  now : nat;
  nextTimerId : nat;
  pending : list Timer
}.

(** [setTimeout(callback, delay)]: a new pending timer; its id is the
    result. *)
Definition setTimeout (ts : Timers) (cb : list WidgetCall) (delay : nat)
  : Timers * nat :=
  ({| now := now ts;
      nextTimerId := S (nextTimerId ts);
      pending := pending ts
                 ++ [{| timerId := nextTimerId ts;
                        due := now ts + delay;
                        callback := cb |}] |},
   nextTimerId ts).

(** [clearTimeout(id)]: the timer of that id is no longer pending; [null]
    and an id that is not pending change nothing. *)
Definition clearTimeout (ts : Timers) (id : option nat) : Timers :=
  match id with
  | None => ts
  | Some i =>
      {| now := now ts;
         nextTimerId := nextTimerId ts;
         pending := filter (fun t => negb (timerId t =? i)%nat) (pending ts) |}
  end.

Definition isDue (time : nat) (t : Timer) : bool := (due t <=? time)%nat.

(** Time passes: the timers that have become due run, in the order they
    were set, and are no longer pending. *)
Definition advance (ts : Timers) (ms : nat) : Timers * list WidgetCall :=
  let time := now ts + ms in
  ({| now := time;
      nextTimerId := nextTimerId ts;
      pending := filter (fun t => negb (isDue time t)) (pending ts) |},
   flat_map callback (filter (isDue time) (pending ts))).

(** What the listeners read of the host: [platform.isMacintosh] and
    [nls.localize], both outside the sources at hand. *)
Record Host : Type := {
  isMacintosh : bool;
  localize : string -> string -> string
}.

(** Lines 117-122. *)
Definition message (h : Host) : string :=
  if isMacintosh h
  then localize h "terminalLinkHandler.followLinkCmd"
         "Cmd + click to follow link"
  else localize h "terminalLinkHandler.followLinkCtrl"
         "Ctrl + click to follow link".

(** The callback given to [setTimeout] (lines 116-124). *)
Definition timeoutCallback (h : Host) (element : Element) : list WidgetCall :=
  [showMessage (offsetLeft element) (offsetTop element) (message h)].

(** An element with the listeners added to it: for each call of
    [_addTooltipEventListeners] the variable [timeout] of that call. *)
Record State : Type := {
  element : Element;
  timers : Timers;
  listeners : list (option nat);
  calls : list WidgetCall
}.

(** [_addTooltipEventListeners(element)]: one more pair of listeners,
    with [timeout] at [null]. *)
Definition _addTooltipEventListeners (s : State) : State :=
  {| element := element s;
     timers := timers s;
     listeners := listeners s ++ [None];
     calls := calls s |}.

(** The [mouseenter] listener of one call (lines 115-125): it sets a
    timer of 500 ms and keeps its id in [timeout]. *)
Definition mouseenterListener (h : Host) (el : Element)
  (acc : Timers * list (option nat)) (timeout : option nat)
  : Timers * list (option nat) :=
  let (ts, id) := setTimeout (fst acc) (timeoutCallback h el) 500 in
  (ts, snd acc ++ [Some id]).

(** The [mouseleave] listener of one call (lines 126-129). *)
Definition mouseleaveListener (acc : Timers * list WidgetCall)
  (timeout : option nat) : Timers * list WidgetCall :=
  (clearTimeout (fst acc) timeout, snd acc ++ [closeMessage]).

(** The events run the listeners in the order they were added. *)
Definition mouseenter (h : Host) (s : State) : State :=
  let (ts, ls) :=
    fold_left (mouseenterListener h (element s)) (listeners s)
      (timers s, []) in
  {| element := element s; timers := ts; listeners := ls; calls := calls s |}.

Definition mouseleave (s : State) : State :=
  let (ts, cs) :=
    fold_left mouseleaveListener (listeners s) (timers s, calls s) in
  {| element := element s; timers := ts; listeners := listeners s;
     calls := cs |}.

Definition elapse (ms : nat) (s : State) : State :=
  let (ts, fired) := advance (timers s) ms in
  {| element := element s; timers := ts; listeners := listeners s;
     calls := calls s ++ fired |}.

Inductive Event : Type :=
| MouseEnter
| MouseLeave
| Elapse (ms : nat).

Definition step (h : Host) (s : State) (e : Event) : State :=
  match e with
  | MouseEnter => mouseenter h s
  | MouseLeave => mouseleave s
  | Elapse ms => elapse ms s
  end.

Definition run (h : Host) (s : State) (events : list Event) : State :=
  fold_left (step h) events s.

(** The time that a list of waits takes. *)
Definition total (waits : list nat) : nat := fold_right Nat.add 0 waits.

(** Whether one of the listeners holds the id of a timer. *)
Definition holds (ls : list (option nat)) (t : Timer) : bool :=
  existsb (fun l => match l with
                    | Some i => (timerId t =? i)%nat
                    | None => false
                    end) ls.

(** An element nothing has been added to, at a time when no timer is
    pending. *)
Definition fresh (el : Element) (time : nat) : State :=
  {| element := el;
     timers := {| now := time; nextTimerId := 1; pending := [] |};
     listeners := [];
     calls := [] |}.

(** The timers that one [mouseenter] sets, for listeners added [k]
    times. *)
Definition batch (h : Host) (el : Element) (time first k : nat)
  : list Timer :=
  map (fun id => {| timerId := id; due := time + 500;
                    callback := timeoutCallback h el |})
    (List.seq first k).

End Tooltip.


(** Whether every slash of a text is followed by a content unit of the
    Windows pattern: no slash at the end, no two slashes in a row. *)
Fixpoint slashFollowed (s : list ascii) : bool :=
  match s with
  | [] => true
  | c :: t =>
      (if Ascii.eqb c "/"
       then match t with
            | d :: _ => winContent d
            | [] => false
            end
       else true)
      && slashFollowed t
  end.

(** ** Sessions: the constructor, then registrations in any order *)





(** * Properties *)

(** ** The patterns *)

Lemma UNIX_LIKE_LOCAL_LINK_REGEX_source :
  RegExp_new UNIX_LIKE_LOCAL_LINK_SOURCE = Some UNIX_LIKE_LOCAL_LINK_REGEX.
Proof. vm_compute. reflexivity. Qed.

Lemma WINDOWS_LOCAL_LINK_REGEX_source :
  RegExp_new WINDOWS_LOCAL_LINK_SOURCE = Some WINDOWS_LOCAL_LINK_REGEX.
Proof. vm_compute. reflexivity. Qed.

(** Both patterns are one capture group around everything, so the first
    capture ([matchIndex: 1]) is the whole match. *)
Lemma local_link_regex_is_one_group (self : TerminalLinkHandler) :
  exists r, _localLinkRegex self = Group r.
Proof.
  unfold _localLinkRegex. destruct (Platform_eqb _ _); eexists; reflexivity.
Qed.

(** ** The matcher

    The matcher finds only what the pattern can read, it looks at the rest
    of the input only, and the fuel [compile] gives a repetition is
    enough: more fuel never changes a result. *)

Lemma Matches_suffix r x y : Matches r x y -> exists w, x = w ++ y.
Proof.
  induction 1;
    try (exists []; reflexivity);
    try (exists [ch]; reflexivity);
    try assumption.
  - destruct IHMatches1 as [w1 ->]. destruct IHMatches2 as [w2 ->].
    exists (w1 ++ w2). now rewrite app_assoc.
  - destruct IHMatches1 as [w1 ->]. destruct IHMatches2 as [w2 ->].
    exists (w1 ++ w2). now rewrite app_assoc.
Qed.

Lemma Matches_length r x y : Matches r x y -> List.length y <= List.length x.
Proof.
  intros H. destruct (Matches_suffix _ _ _ H) as [w ->].
  rewrite length_app. lia.
Qed.

Lemma RepeatMatcher_unfold m fuel min max x c :
  max <> Some 0 ->
  RepeatMatcher m (S fuel) min max x c
  = if (min =? 0)%nat then
      match m x (iterate m fuel min max x c) with
      | Some z => Some z
      | None => c x
      end
    else m x (iterate m fuel min max x c).
Proof. destruct max as [[|k]|]; [contradiction | reflexivity..]. Qed.

Lemma RepeatMatcher_max_0 m fuel min x c :
  RepeatMatcher m fuel min (Some 0) x c = c x.
Proof. destruct fuel; reflexivity. Qed.

Lemma RepeatMatcher_fuel_0 m min max x c :
  RepeatMatcher m 0 min max x c = c x.
Proof. destruct max as [[|k]|]; reflexivity. Qed.

Lemma max_cases (max : option nat) : max = Some 0 \/ max <> Some 0.
Proof. destruct max as [[|k]|]; [now left | right; discriminate..]. Qed.

Lemma RepeatMatcher_sound m r :
  sound m r ->
  forall fuel min max x c z,
    min + List.length x <= fuel ->
    RepeatMatcher m fuel min max x c = Some z ->
    exists y, Matches (Quant r min max) x y /\ c y = Some z.
Proof.
  intros Hm. induction fuel as [|fuel IH]; intros min max x c z Hfuel Hrun.
  - assert (min = 0) by lia. subst min.
    rewrite RepeatMatcher_fuel_0 in Hrun.
    exists x. split; [apply MatchesQuantStop | exact Hrun].
  - destruct (max_cases max) as [-> | Hmax].
    { rewrite RepeatMatcher_max_0 in Hrun.
      exists x. split; [apply MatchesQuantMax | exact Hrun]. }
    rewrite RepeatMatcher_unfold in Hrun by exact Hmax.
    assert (Hstep : forall z',
      m x (iterate m fuel min max x c) = Some z' ->
      exists y, Matches (Quant r min max) x y /\ c y = Some z').
    { intros z' E. apply Hm in E. destruct E as (y & Hy & Hd).
      pose proof (Matches_length _ _ _ Hy) as Hlen.
      unfold iterate in Hd.
      destruct (Nat.eqb_spec min 0) as [-> | Hmin];
        [destruct (Nat.eqb_spec (List.length y) (List.length x));
           [discriminate|] |];
        simpl in Hd; (apply IH in Hd; [|simpl; lia]);
        destruct Hd as (y' & Hy' & Hc); exists y';
        (split; [eapply MatchesQuantStep; eassumption | exact Hc]). }
    destruct (min =? 0)%nat eqn:Emin; [|now apply Hstep].
    apply Nat.eqb_eq in Emin. subst min.
    destruct (m x _) as [z'|] eqn:E.
    + inversion Hrun; subst z'. now apply Hstep.
    + exists x. split; [apply MatchesQuantStop | exact Hrun].
Qed.

Lemma CharacterSetMatcher_inv p x c z :
  CharacterSetMatcher p x c = Some z ->
  exists ch y, x = ch :: y /\ p ch = true /\ c y = Some z.
Proof.
  destruct x as [|ch y]; simpl; [discriminate|].
  destruct (p ch) eqn:E; [|discriminate].
  intros H. now exists ch, y.
Qed.

Lemma compile_sound r : sound (compile r) r.
Proof.
  induction r as [| ch | invert items | | r1 IH1 r2 IH2 | r1 IH1 r2 IH2
                 | r IH | r IH min max];
    intros x c z Hrun; simpl in Hrun.
  - exists x. split; [constructor | exact Hrun].
  - apply CharacterSetMatcher_inv in Hrun.
    destruct Hrun as (ch' & y & -> & Hch & Hc).
    apply Ascii.eqb_eq in Hch. subst ch'.
    exists y. split; [constructor | exact Hc].
  - apply CharacterSetMatcher_inv in Hrun.
    destruct Hrun as (ch' & y & -> & Hch & Hc).
    exists y. split; [now constructor | exact Hc].
  - destruct x; [|discriminate].
    exists []. split; [constructor | exact Hrun].
  - apply IH1 in Hrun. destruct Hrun as (y & Hy & Hrun).
    apply IH2 in Hrun. destruct Hrun as (y' & Hy' & Hc).
    exists y'. split; [econstructor; eassumption | exact Hc].
  - destruct (compile r1 x c) as [z'|] eqn:E.
    + inversion Hrun; subst z'. apply IH1 in E.
      destruct E as (y & Hy & Hc).
      exists y. split; [now apply MatchesDisjL | exact Hc].
    + apply IH2 in Hrun. destruct Hrun as (y & Hy & Hc).
      exists y. split; [now apply MatchesDisjR | exact Hc].
  - apply IH in Hrun. destruct Hrun as (y & Hy & Hc).
    exists y. split; [now constructor | exact Hc].
  - eapply RepeatMatcher_sound; [exact IH | | exact Hrun]. lia.
Qed.

Lemma RepeatMatcher_forward m :
  forward m ->
  forall fuel min max, forward (fun x c => RepeatMatcher m fuel min max x c).
Proof.
  intros Hm. induction fuel as [|fuel IH]; intros min max x c1 c2 Hc.
  - rewrite !RepeatMatcher_fuel_0. apply Hc. lia.
  - assert (Hx : c1 x = c2 x) by (apply Hc; lia).
    destruct (max_cases max) as [-> | Hmax].
    { rewrite !RepeatMatcher_max_0. exact Hx. }
    rewrite !RepeatMatcher_unfold by exact Hmax.
    assert (Hd : m x (iterate m fuel min max x c1)
                 = m x (iterate m fuel min max x c2)).
    { apply Hm. intros y Hy. unfold iterate.
      destruct ((min =? 0)%nat && _); [reflexivity|].
      apply IH. intros y' Hy'. apply Hc. lia. }
    rewrite Hd, Hx. reflexivity.
Qed.

Lemma compile_forward r : forward (compile r).
Proof.
  induction r as [| ch | invert items | | r1 IH1 r2 IH2 | r1 IH1 r2 IH2
                 | r IH | r IH min max];
    intros x c1 c2 Hc; simpl.
  - apply Hc. lia.
  - destruct x as [|ch' y]; simpl; [reflexivity|].
    destruct (Ascii.eqb ch ch'); [apply Hc; simpl; lia | reflexivity].
  - destruct x as [|ch' y]; simpl; [reflexivity|].
    destruct (classMatches _ _ _); [apply Hc; simpl; lia | reflexivity].
  - destruct x; [apply Hc; lia | reflexivity].
  - apply IH1. intros y Hy. apply IH2. intros y' Hy'. apply Hc. lia.
  - rewrite (IH1 x c1 c2 Hc), (IH2 x c1 c2 Hc). reflexivity.
  - now apply IH.
  - now apply RepeatMatcher_forward.
Qed.

(** A sound matcher whose continuation always fails fails. *)
Lemma sound_fails m r x c :
  sound m r -> forward m ->
  (forall y, List.length y <= List.length x -> c y = None) ->
  m x c = None.
Proof.
  intros Hs Hf Hc.
  rewrite (Hf x c (fun _ => None) Hc).
  destruct (m x (fun _ => None)) as [z|] eqn:E; [|exact E].
  apply Hs in E. destruct E as (y & _ & E). discriminate.
Qed.

(** With no input left and [min] at zero a repetition is over. *)
Lemma RepeatMatcher_at_end m r fuel max x c :
  sound m r -> forward m ->
  List.length x = 0 ->
  RepeatMatcher m fuel 0 max x c = c x.
Proof.
  intros Hs Hf Hx. destruct fuel as [|fuel];
    [apply RepeatMatcher_fuel_0|].
  destruct (max_cases max) as [-> | Hmax];
    [apply RepeatMatcher_max_0|].
  rewrite RepeatMatcher_unfold by exact Hmax. simpl.
  rewrite (sound_fails m r x _ Hs Hf); [reflexivity|].
  intros y Hy. unfold iterate.
  replace (List.length y =? List.length x)%nat with true;
    [reflexivity | symmetry; apply Nat.eqb_eq; lia].
Qed.

(** Fuel beyond [min] plus the length of the input changes nothing. *)
Lemma RepeatMatcher_fuel m r :
  sound m r -> forward m ->
  forall fuel1 fuel2 min max x c,
    min + List.length x <= fuel1 ->
    min + List.length x <= fuel2 ->
    RepeatMatcher m fuel1 min max x c = RepeatMatcher m fuel2 min max x c.
Proof.
  intros Hs Hf.
  induction fuel1 as [|fuel1 IH]; intros fuel2 min max x c H1 H2.
  - assert (min = 0) by lia. subst min.
    rewrite !(RepeatMatcher_at_end m r) by (assumption || lia). reflexivity.
  - destruct fuel2 as [|fuel2].
    { assert (min = 0) by lia. subst min.
      rewrite !(RepeatMatcher_at_end m r) by (assumption || lia).
      reflexivity. }
    destruct (max_cases max) as [-> | Hmax].
    { rewrite !RepeatMatcher_max_0. reflexivity. }
    rewrite !RepeatMatcher_unfold by exact Hmax.
    assert (Hd : m x (iterate m fuel1 min max x c)
                 = m x (iterate m fuel2 min max x c)).
    { apply Hf. intros y Hy. unfold iterate.
      destruct (Nat.eqb_spec min 0) as [-> | Hmin]; simpl.
      - destruct (Nat.eqb_spec (List.length y) (List.length x));
          [reflexivity|]. apply IH; simpl; lia.
      - apply IH; lia. }
    rewrite Hd. reflexivity.
Qed.

(** The repetition of [compile] is the repetition with any larger fuel. *)
Lemma compile_Quant_fuel r min max x c fuel :
  min + List.length x <= fuel ->
  compile (Quant r min max) x c = RepeatMatcher (compile r) fuel min max x c.
Proof.
  intros H. simpl.
  apply (RepeatMatcher_fuel _ r (compile_sound r) (compile_forward r)); lia.
Qed.

Lemma execFrom_unfold m i x :
  execFrom m i x
  = match m x (fun y => Some y) with
    | Some y =>
        Some {| index := i;
                match0 := string_of_list_ascii
                            (firstn (List.length x - List.length y) x) |}
    | None =>
        match x with
        | [] => None
        | _ :: x' => execFrom m (S i) x'
        end
    end.
Proof. destruct x; reflexivity. Qed.

Lemma firstn_prefix (w y : list ascii) :
  firstn (List.length (w ++ y) - List.length y) (w ++ y) = w.
Proof.
  rewrite length_app.
  replace (List.length w + List.length y - List.length y)
    with (List.length w + 0) by lia.
  rewrite firstn_app_2. simpl. apply app_nil_r.
Qed.

Lemma compile_here r x y :
  compile r x (fun y => Some y) = Some y ->
  exists w,
    x = w ++ y
    /\ firstn (List.length x - List.length y) x = w
    /\ Matches r (w ++ y) y.
Proof.
  intros E. apply compile_sound in E. destruct E as (y' & Hy & Heq).
  inversion Heq; subst y'.
  destruct (Matches_suffix _ _ _ Hy) as [w ->].
  exists w. rewrite firstn_prefix. auto.
Qed.

(** [exec] returns a piece of the input that the pattern can read. *)
Lemma execFrom_sound r x : forall i m,
  execFrom (compile r) i x = Some m ->
  exists pre w post,
    x = pre ++ w ++ post
    /\ index m = i + List.length pre
    /\ match0 m = string_of_list_ascii w
    /\ Matches r (w ++ post) post.
Proof.
  induction x as [|ch x IH]; intros i m Hrun;
    rewrite execFrom_unfold in Hrun;
    destruct (compile r _ _) as [y|] eqn:E; try discriminate.
  - apply compile_here in E. destruct E as (w & Hw & Hf & Hy).
    injection Hrun as <-. exists [], w, y.
    repeat split;
      [exact Hw | simpl; lia | exact (f_equal string_of_list_ascii Hf)
      | exact Hy].
  - apply compile_here in E. destruct E as (w & Hw & Hf & Hy).
    injection Hrun as <-. exists [], w, y.
    repeat split;
      [exact Hw | simpl; lia | exact (f_equal string_of_list_ascii Hf)
      | exact Hy].
  - apply IH in Hrun.
    destruct Hrun as (pre & w & post & -> & Hi & Hm & Hr).
    exists (ch :: pre), w, post.
    repeat split; [simpl; lia | exact Hm | exact Hr].
Qed.

Lemma exec_sound r input m :
  exec r input = Some m ->
  exists pre w post,
    list_ascii_of_string input = pre ++ w ++ post
    /\ index m = List.length pre
    /\ match0 m = string_of_list_ascii w
    /\ Matches r (w ++ post) post.
Proof.
  intros H. apply execFrom_sound in H.
  destruct H as (pre & w & post & H1 & H2 & H3 & H4).
  exists pre, w, post. auto.
Qed.

Lemma Matches_Group_inv r x y : Matches (Group r) x y -> Matches r x y.
Proof. intros H. inversion H; subst. assumption. Qed.

Lemma Matches_Seq_inv r1 r2 x z :
  Matches (Seq r1 r2) x z -> exists y, Matches r1 x y /\ Matches r2 y z.
Proof. intros H. inversion H; subst. eauto. Qed.

Lemma Matches_Disj_inv r1 r2 x y :
  Matches (Disj r1 r2) x y -> Matches r1 x y \/ Matches r2 x y.
Proof. intros H. inversion H; subst; auto. Qed.

Lemma Matches_Char_inv ch x y : Matches (Char ch) x y -> x = ch :: y.
Proof. intros H. inversion H; subst. reflexivity. Qed.

Lemma Matches_Class_inv invert items x y :
  Matches (Class invert items) x y ->
  exists ch, x = ch :: y /\ classMatches invert items ch = true.
Proof. intros H. inversion H; subst. eauto. Qed.

(** A repetition with [+] reads its body at least once. *)
Lemma Matches_Plus_inv r x z :
  Matches (Quant r 1 None) x z ->
  exists y, Matches r x y /\ Matches (Quant r 0 None) y z.
Proof. intros H. inversion H; subst. eauto. Qed.

(** Every match of the Unix-like pattern holds a slash. *)
Lemma unix_match_has_separator input m :
  exec UNIX_LIKE_LOCAL_LINK_REGEX input = Some m ->
  exists a b,
    list_ascii_of_string (match0 m) = a ++ "/"%char :: b.
Proof.
  intros H. apply exec_sound in H.
  destruct H as (pre & w & post & _ & _ & -> & Hr).
  rewrite list_ascii_of_string_of_list_ascii.
  unfold UNIX_LIKE_LOCAL_LINK_REGEX in Hr.
  apply Matches_Group_inv, Matches_Seq_inv in Hr.
  destruct Hr as (y0 & Hprefix & Hgroups).
  destruct (Matches_suffix _ _ _ Hprefix) as [w0 Hw0].
  apply Matches_Plus_inv in Hgroups.
  destruct Hgroups as (y1 & Hgroup & Hmore).
  apply Matches_Group_inv, Matches_Seq_inv in Hgroup.
  destruct Hgroup as (y2 & Hsep & Hcontent).
  apply Matches_Char_inv in Hsep. subst y0.
  destruct (Matches_suffix _ _ _ Hcontent) as [w1 ->].
  destruct (Matches_suffix _ _ _ Hmore) as [w2 ->].
  exists w0, (w1 ++ w2).
  apply (app_inv_tail post). rewrite Hw0.
  rewrite <- !app_assoc. simpl. now rewrite <- !app_assoc.
Qed.

(** Every match of the Windows pattern holds a separator followed by a
    unit that the excluded-characters clause accepts. *)
Lemma windows_match_has_separator_and_content input m :
  exec WINDOWS_LOCAL_LINK_REGEX input = Some m ->
  exists a sep ch b,
    list_ascii_of_string (match0 m) = a ++ sep :: ch :: b
    /\ (sep = "\"%char \/ sep = "/"%char)
    /\ pathCharacter winExcludedPathCharactersClause ch = true.
Proof.
  intros H. apply exec_sound in H.
  destruct H as (pre & w & post & _ & _ & -> & Hr).
  rewrite list_ascii_of_string_of_list_ascii.
  unfold WINDOWS_LOCAL_LINK_REGEX in Hr.
  apply Matches_Group_inv, Matches_Seq_inv in Hr.
  destruct Hr as (y0 & Hprefix & Hgroups).
  destruct (Matches_suffix _ _ _ Hprefix) as [w0 Hw0].
  apply Matches_Plus_inv in Hgroups.
  destruct Hgroups as (y1 & Hgroup & Hmore).
  apply Matches_Group_inv, Matches_Seq_inv in Hgroup.
  destruct Hgroup as (y2 & Hsep & Hcontent).
  apply Matches_Group_inv, Matches_Disj_inv in Hsep.
  apply Matches_Plus_inv in Hcontent.
  destruct Hcontent as (y3 & Hfirst & Hrest).
  apply Matches_Group_inv, Matches_Class_inv in Hfirst.
  destruct Hfirst as (ch & -> & Hch).
  destruct (Matches_suffix _ _ _ Hrest) as [w1 ->].
  destruct (Matches_suffix _ _ _ Hmore) as [w2 ->].
  assert (Hy0 : exists sep, y0 = sep :: ch :: (w1 ++ w2) ++ post
                            /\ (sep = "\"%char \/ sep = "/"%char)).
  { destruct Hsep as [Hsep | Hsep]; apply Matches_Char_inv in Hsep;
      subst y0; eexists; (split; [rewrite <- app_assoc; reflexivity|]); auto. }
  destruct Hy0 as (sep & -> & Hsep').
  exists w0, sep, ch, (w1 ++ w2). repeat split.
  - apply (app_inv_tail post). rewrite Hw0.
    rewrite <- !app_assoc. simpl. now rewrite <- !app_assoc.
  - exact Hsep'.
  - exact Hch.
Qed.

(** What a pattern reads is made of the units its atoms read. *)
Lemma Matches_reads P r x y :
  reads P r -> Matches r x y ->
  exists w, x = w ++ y /\ Forall (fun ch => P ch = true) w.
Proof.
  intros Hr H. induction H; simpl in Hr;
    try (exists []; split; [reflexivity | constructor]).
  - exists [ch]. split; [reflexivity|]. now repeat constructor.
  - exists [ch]. split; [reflexivity|]. repeat constructor. now apply Hr.
  - destruct Hr as [Hr1 Hr2].
    destruct (IHMatches1 Hr1) as (w1 & -> & Hw1).
    destruct (IHMatches2 Hr2) as (w2 & -> & Hw2).
    exists (w1 ++ w2). split; [now rewrite app_assoc|].
    apply Forall_app. now split.
  - apply IHMatches. apply Hr.
  - apply IHMatches. apply Hr.
  - now apply IHMatches.
  - destruct (IHMatches1 Hr) as (w1 & -> & Hw1).
    destruct (IHMatches2 Hr) as (w2 & -> & Hw2).
    exists (w1 ++ w2). split; [now rewrite app_assoc|].
    apply Forall_app. now split.
Qed.

Lemma UNIX_LIKE_LOCAL_LINK_REGEX_reads :
  reads unixUnit UNIX_LIKE_LOCAL_LINK_REGEX.
Proof.
  unfold UNIX_LIKE_LOCAL_LINK_REGEX. cbn [reads].
  repeat split; try reflexivity.
  intros ch H. unfold unixUnit. apply Bool.orb_true_iff. left. exact H.
Qed.

(** Every unit of a match of the Unix-like pattern is one the
    excluded-characters clause accepts or one of [+], [!], the backquote
    and [&]. *)
Lemma unix_match_units input m :
  exec UNIX_LIKE_LOCAL_LINK_REGEX input = Some m ->
  Forall (fun ch => unixUnit ch = true) (list_ascii_of_string (match0 m)).
Proof.
  intros H. apply exec_sound in H.
  destruct H as (pre & w & post & _ & _ & -> & Hr).
  rewrite list_ascii_of_string_of_list_ascii.
  destruct (Matches_reads unixUnit _ _ _
              UNIX_LIKE_LOCAL_LINK_REGEX_reads Hr) as (w' & Hw & Hall).
  apply app_inv_tail in Hw. now subst w'.
Qed.

(** So no match of the Unix-like pattern holds a space, a dollar sign, a
    star, a parenthesis, a bracket, a quote, a colon or a semicolon,
    escaped or not. *)
Lemma unix_match_never_holds input m ch :
  exec UNIX_LIKE_LOCAL_LINK_REGEX input = Some m ->
  In ch (list_ascii_of_string
           (" $*()[]':;" ++ JsString.dquote)) ->
  ~ In ch (list_ascii_of_string (match0 m)).
Proof.
  intros H Hch Hin.
  pose proof (unix_match_units _ _ H) as Hall.
  rewrite Forall_forall in Hall. apply Hall in Hin.
  simpl in Hch.
  repeat (destruct Hch as [<- | Hch]; [vm_compute in Hin; discriminate|]).
  exact Hch.
Qed.

(** ** Matches of the local-path patterns *)

(** C1 (the code differs): the Unix-like pattern accepts a plus sign that
    no backslash escapes, since the last alternative of the escaped clause
    reads as a plain plus sign; and it stops in the middle of an escaped
    exclamation mark, keeping the backslash and dropping the mark. *)
Theorem unix_match_keeps_plus_and_cuts_escape :
  exec UNIX_LIKE_LOCAL_LINK_REGEX "/a+b"
  = Some {| index := 0; match0 := "/a+b" |}
  /\ hasUnescapedExcluded excludedPathCharactersClause
       (list_ascii_of_string "/a+b") = true
  /\ exec UNIX_LIKE_LOCAL_LINK_REGEX "/a\!b"
     = Some {| index := 0; match0 := "/a\" |}
  /\ exec UNIX_LIKE_LOCAL_LINK_REGEX "/a\ b"
     = Some {| index := 0; match0 := "/a\" |}.
Proof. repeat split; vm_compute; reflexivity. Qed.

(** C3 (the code differs): the Unix-like pattern matches a tilde and a
    slash with nothing after the slash, and a slash alone: the escaped
    clause can read nothing, so the content of a group may be empty. *)
Theorem unix_separator_with_empty_content_matches :
  exec UNIX_LIKE_LOCAL_LINK_REGEX "~/"
  = Some {| index := 0; match0 := "~/" |}
  /\ exec UNIX_LIKE_LOCAL_LINK_REGEX "/"
     = Some {| index := 0; match0 := "/" |}.
Proof. split; vm_compute; reflexivity. Qed.

(** What holds of the tilde cases: a bare tilde matches neither pattern,
    a separator with nothing after it does not match the Windows pattern,
    and a tilde, a separator and one unit match. *)
Lemma tilde_matches :
  exec UNIX_LIKE_LOCAL_LINK_REGEX "~" = None
  /\ exec WINDOWS_LOCAL_LINK_REGEX "~" = None
  /\ exec WINDOWS_LOCAL_LINK_REGEX "~\" = None
  /\ exec WINDOWS_LOCAL_LINK_REGEX "~/" = None
  /\ exec UNIX_LIKE_LOCAL_LINK_REGEX "~/a"
     = Some {| index := 0; match0 := "~/a" |}
  /\ exec WINDOWS_LOCAL_LINK_REGEX "~\a"
     = Some {| index := 0; match0 := "~\a" |}.
Proof. repeat split; vm_compute; reflexivity. Qed.

(** ** Resolution *)

Lemma Platform_eqb_eq a b : Platform_eqb a b = true <-> a = b.
Proof. destruct a, b; simpl; split; intros H; congruence. Qed.

Lemma Platform_eqb_neq a b : a <> b -> Platform_eqb a b = false.
Proof.
  intros H. destruct (Platform_eqb a b) eqn:E; [|reflexivity].
  apply Platform_eqb_eq in E. contradiction.
Qed.

(** A link that does not start with a dot passes the dot check as it is. *)
Lemma resolveWorkspacePath_other P ctx link :
  charAt 0 link <> "." ->
  resolveWorkspacePath P ctx link = Continue link.
Proof.
  intros H. unfold resolveWorkspacePath.
  destruct (String.eqb_spec (charAt 0 link) "."); [contradiction|reflexivity].
Qed.

Lemma charAt_0_append a b :
  a <> EmptyString -> charAt 0 (a ++ b) = charAt 0 a.
Proof. destruct a; [contradiction | reflexivity]. Qed.

Lemma truthy_nonempty s : truthy s = true -> s <> EmptyString.
Proof. intros H ->. discriminate. Qed.

(** The last step asks the file system once, about the link it is given. *)
Lemma openIfExists_run h link :
  openIfExists h link = ([FileExists link], Normal (settled h link)).
Proof.
  unfold openIfExists, pfs_fileExists, settled.
  destruct (fileSystem h link); reflexivity.
Qed.

(** C2 (counterexample): with HOMEDRIVE [C:] and HOMEPATH [\Users\u], the
    path handed to the existence check for [~/foo] has a backslash between
    drive and path and keeps the slash of the link; it is not
    [C:\Users\u\foo]. *)
Lemma windows_tilde_candidate_is_not_normalized :
  _resolvePath (hostWith windowsHome everythingExists)
    (handlerOn Windows noWorkspace) "~/foo"
  = ([FileExists "C:\\Users\u/foo"], Normal (JsString "C:\\Users\u/foo"))
  /\ "C:\\Users\u/foo" <> "C:\Users\u\foo".
Proof. split; [reflexivity | discriminate]. Qed.

(** C2 (amended): on Windows with HOMEDRIVE and HOMEPATH both present and
    not empty, a link that starts with a tilde has the tilde replaced by
    HOMEDRIVE, a backslash and HOMEPATH, the rest kept as it is; unless
    HOMEDRIVE starts with a dot, that string is the one path handed to the
    existence check. *)
Theorem windows_tilde_substitution h self link homedrive homepath :
  _platform self = Windows ->
  HOMEDRIVE (env h) = Some homedrive ->
  HOMEPATH (env h) = Some homepath ->
  truthy homedrive = true ->
  truthy homepath = true ->
  charAt 0 link = "~" ->
  charAt 0 homedrive <> "." ->
  _resolvePath h self link
  = ([FileExists (homedrive ++ "\" ++ homepath ++ substring 1 link)],
     Normal (settled h (homedrive ++ "\" ++ homepath ++ substring 1 link))).
Proof.
  intros Hplat Hd Hp Htd Htp Htilde Hdot.
  unfold _resolvePath, resolveHome.
  rewrite Hplat, Htilde, Hd, Hp. simpl. rewrite Htd, Htp. simpl.
  rewrite resolveWorkspacePath_other; [apply openIfExists_run|].
  rewrite charAt_0_append; [exact Hdot | now apply truthy_nonempty].
Qed.

(** The substitution for [~/foo] with [C:] and [\Users\u]. *)
Lemma windows_tilde_substitution_witness :
  _resolvePath (hostWith windowsHome everythingExists)
    (handlerOn Windows noWorkspace) "~/foo"
  = ([FileExists "C:\\Users\u/foo"], Normal (JsString "C:\\Users\u/foo")).
Proof.
  apply (windows_tilde_substitution
           (hostWith windowsHome everythingExists)
           (handlerOn Windows noWorkspace) "~/foo" "C:" "\Users\u");
    try reflexivity.
  discriminate.
Defined.




Lemma resolveWorkspacePath_return P ctx link v :
  resolveWorkspacePath P ctx link = Return v -> v = undefined.
Proof.
  unfold resolveWorkspacePath.
  destruct (String.eqb _ _); [|discriminate].
  destruct (negb _); [congruence|].
  destruct (getWorkspace ctx); discriminate.
Qed.

Lemma resolveHome_cases e link :
  resolveHome e link = Return undefined
  \/ exists link', resolveHome e link = Continue link'.
Proof.
  unfold resolveHome.
  destruct (String.eqb _ _); [|eauto].
  destruct (negb _ || negb _); [auto|].
  destruct (HOMEDRIVE e), (HOMEPATH e); eauto.
Qed.




(** Without a consistent workspace service the dot check throws: the
    service says a workspace is there and returns none. *)
Lemma inconsistent_workspace_service_throws h p link :
  charAt 0 link = "." ->
  _resolvePath h
    (handlerOn p {| hasWorkspace := true; getWorkspace := None |}) link
  = ([], Throw "TypeError").
Proof.
  intros Hdot. unfold _resolvePath, resolveHome, resolveWorkspacePath.
  cbn [_platform _contextService handlerOn hasWorkspace getWorkspace].
  rewrite Hdot. destruct (Platform_eqb p Windows); simpl;
    rewrite ?Hdot; reflexivity.
Qed.


(** ** Clicks *)

(** The modifier a click must carry on the platform of the handler. *)
Lemma _wrapLinkHandler_gate self handler event uri :
  (if Platform_eqb (_platform self) Mac then metaKey event else ctrlKey event)
  = false ->
  _wrapLinkHandler self handler event uri
  = ([PreventDefault], Normal (JsBool false)).
Proof.
  intros H. unfold _wrapLinkHandler.
  destruct (Platform_eqb (_platform self) Mac); rewrite H; reflexivity.
Qed.

(** C6: a click without the modifier of the platform ([metaKey] on Mac,
    [ctrlKey] elsewhere) prevents the default and yields [false], whatever
    the wrapped handler is: the handler is not run.  This holds of the
    hypertext handler the constructor sets, of every custom handler and of
    the local-link handler as registered. *)
Theorem click_without_modifier_is_suppressed self event uri :
  (if Platform_eqb (_platform self) Mac then metaKey event else ctrlKey event)
  = false ->
  (forall handler,
     _wrapLinkHandler self handler event uri
     = ([PreventDefault], Normal (JsBool false)))
  /\ (forall x wrapped,
        hypertextLinkHandler (constructor self x) = Some wrapped ->
        wrapped event uri = ([PreventDefault], Normal (JsBool false)))
  /\ (forall x r custom mi vc m,
        linkMatchers (fst (registerCustomLinkHandler self x r custom mi vc))
        = linkMatchers x ++ [m] ->
        handler m event uri = ([PreventDefault], Normal (JsBool false)))
  /\ (forall h x m,
        linkMatchers (fst (registerLocalLinkHandler h self x))
        = linkMatchers x ++ [m] ->
        handler m event uri = ([PreventDefault], Normal (JsBool false))).
Proof.
  intros Hgate. repeat split.
  - intros handler. now apply _wrapLinkHandler_gate.
  - intros x wrapped H. simpl in H. inversion H; subst wrapped.
    now apply _wrapLinkHandler_gate.
  - intros x r custom mi vc m H. simpl in H.
    apply app_inv_head in H. inversion H; subst m. simpl.
    now apply _wrapLinkHandler_gate.
  - intros h x m H. simpl in H.
    apply app_inv_head in H. inversion H; subst m. simpl.
    now apply _wrapLinkHandler_gate.
Qed.

(** A click with the control key on Mac, where the meta key is asked. *)
Lemma click_without_modifier_is_suppressed_witness :
  _wrapLinkHandler (handlerOn Mac noWorkspace)
    (fun uri => emit (Foreign uri) ;;; ret (JsBool true))
    {| metaKey := false; ctrlKey := true |} "~/a"
  = ([PreventDefault], Normal (JsBool false)).
Proof.
  apply (click_without_modifier_is_suppressed (handlerOn Mac noWorkspace)
           {| metaKey := false; ctrlKey := true |} "~/a").
  reflexivity.
Defined.

(** With the modifier the wrapped handler is the handler. *)
Lemma click_with_modifier_runs_handler self handler event uri :
  (if Platform_eqb (_platform self) Mac then metaKey event else ctrlKey event)
  = true ->
  _wrapLinkHandler self handler event uri = handler uri.
Proof.
  intros H. unfold _wrapLinkHandler.
  destruct (Platform_eqb (_platform self) Mac); rewrite H; reflexivity.
Qed.

(** ** Registration *)

(** C7 (counterexample): after construction the terminal holds no link
    matcher, so none for local paths. *)
Lemma construction_registers_no_matcher :
  linkMatchers (constructor (handlerOn Linux projectWorkspace) freshXterm)
  = [].
Proof. reflexivity. Qed.

(** C7 (amended): construction sets the hypertext handler, wrapped, and
    the hypertext validation callback, and registers no matcher; the
    local-path matcher is registered by [registerLocalLinkHandler], a call
    of its own, with the pattern of the platform, first capture, the local
    validation and priority -2. *)
Theorem construction_then_local_registration h self x :
  linkMatchers (constructor self x) = linkMatchers x
  /\ hypertextLinkHandler (constructor self x)
     = Some (_wrapLinkHandler self (fun _ => ret (JsBool true)))
  /\ hypertextValidationCallback (constructor self x)
     = Some _validateWebLink
  /\ exists m,
       linkMatchers (fst (registerLocalLinkHandler h self (constructor self x)))
       = linkMatchers x ++ [m]
       /\ regex m = _localLinkRegex self
       /\ regex m = (if Platform_eqb (_platform self) Windows
                     then WINDOWS_LOCAL_LINK_REGEX
                     else UNIX_LIKE_LOCAL_LINK_REGEX)
       /\ matchIndex (options m) = Some 1
       /\ validationCallback (options m) = Some (_validateLocalLink h self)
       /\ priority (options m) = LOCAL_LINK_PRIORITY
       /\ LOCAL_LINK_PRIORITY = (-2)%Z.
Proof.
  repeat split. eexists. repeat split.
Qed.

(** ** Dot-relative and tilde links off Windows *)

Lemma posix_normalize_absolute p :
  charAt 0 p = "/" -> charAt 0 (posix_normalize p) = "/".
Proof.
  destruct p as [|c p]; [discriminate|].
  unfold charAt. simpl String.get. intros H. inversion H; subst c.
  unfold posix_normalize. simpl list_ascii_of_string. simpl isAbsolute.
  reflexivity.
Qed.

Lemma posix_join_absolute root link :
  charAt 0 root = "/" -> link <> EmptyString ->
  charAt 0 (posix_join root link) = "/".
Proof.
  intros Hroot Hlink. destruct root as [|c root]; [discriminate|].
  destruct link as [|d link]; [contradiction|].
  unfold posix_join. apply posix_normalize_absolute. exact Hroot.
Qed.

(** C8: off Windows, with the workspace at [/home/u/project] and the POSIX
    [path] module, the path handed to the existence check for [./foo] is
    [/home/u/project/foo], and it is the outcome when a regular file is
    there. *)
Theorem dot_relative_joins_workspace_root e fs cwd p :
  p <> Windows ->
  _resolvePath {| env := e; path := posix cwd; fileSystem := fs |}
    (handlerOn p projectWorkspace) "./foo"
  = ([FileExists "/home/u/project/foo"],
     Normal (match fs "/home/u/project/foo" with
             | RegularFile => JsString "/home/u/project/foo"
             | NotAFile => null
             | StatFails => null
             end)).
Proof.
  intros Hp. unfold _resolvePath, handlerOn.
  cbn [_platform _contextService path].
  rewrite (Platform_eqb_neq _ _ Hp).
  change (resolveWorkspacePath (posix cwd) projectWorkspace "./foo")
    with (Continue "/home/u/project/foo").
  change (resolveWorkspacePath (posix cwd) projectWorkspace
            "/home/u/project/foo")
    with (Continue "/home/u/project/foo").
  apply openIfExists_run.
Qed.

(** On Linux, with every path an existing file. *)
Lemma dot_relative_joins_workspace_root_witness :
  _resolvePath (hostWith noHome everythingExists)
    (handlerOn Linux projectWorkspace) "./foo"
  = ([FileExists "/home/u/project/foo"],
     Normal (JsString "/home/u/project/foo")).
Proof.
  apply (dot_relative_joins_workspace_root noHome everythingExists "/" Linux).
  discriminate.
Defined.

(** C9 (counterexample): on Windows the dot check after the platform
    branch is the only one.  With the workspace at [/home/u/project], the
    resolver checks and yields [/home/u/project/foo] for [./foo]; the
    resolver without that check checks and yields [./foo] itself. *)
Lemma collapsed_resolver_differs_on_windows :
  _resolvePath (hostWith noHome everythingExists)
    (handlerOn Windows projectWorkspace) "./foo"
  = ([FileExists "/home/u/project/foo"],
     Normal (JsString "/home/u/project/foo"))
  /\ _resolvePath_collapsed (hostWith noHome everythingExists)
       (handlerOn Windows projectWorkspace) "./foo"
     = ([FileExists "./foo"], Normal (JsString "./foo"))
  /\ _resolvePath_collapsed (hostWith noHome everythingExists)
       (handlerOn Windows projectWorkspace) "./foo"
     <> _resolvePath (hostWith noHome everythingExists)
          (handlerOn Windows projectWorkspace) "./foo"
  /\ absoluteRoot (_contextService (handlerOn Windows projectWorkspace)).
Proof.
  repeat split; [discriminate|].
  intros ws H. inversion H. reflexivity.
Qed.

(** On Windows, whatever the [path] module, a link that starts with a dot
    is joined to the workspace path by the resolver and left as it is by
    the resolver without the second check. *)
Lemma collapsed_resolver_on_windows h self link ws :
  _platform self = Windows ->
  charAt 0 link = "." ->
  hasWorkspace (_contextService self) = true ->
  getWorkspace (_contextService self) = Some ws ->
  effects (_resolvePath h self link)
  = [FileExists (join (path h) (resource_fsPath ws) link)]
  /\ effects (_resolvePath_collapsed h self link) = [FileExists link].
Proof.
  intros Hp Hdot Hws Hg.
  unfold _resolvePath, _resolvePath_collapsed, resolveHome,
    resolveWorkspacePath.
  rewrite Hp, Hdot, Hws, Hg. simpl. rewrite Hdot. simpl.
  rewrite !openIfExists_run. split; reflexivity.
Qed.

(** C9 (amended): off Windows, with the POSIX [path] module and an
    absolute workspace root, the resolver without the dot check after the
    platform branch is the resolver: effects and outcome are the same for
    every link. *)
Theorem collapsed_resolver_equal_off_windows e fs cwd self link :
  _platform self <> Windows ->
  absoluteRoot (_contextService self) ->
  _resolvePath_collapsed
    {| env := e; path := posix cwd; fileSystem := fs |} self link
  = _resolvePath {| env := e; path := posix cwd; fileSystem := fs |} self link.
Proof.
  intros Hp Habs. unfold _resolvePath, _resolvePath_collapsed.
  rewrite (Platform_eqb_neq _ _ Hp). cbn [path env fileSystem].
  destruct (resolveWorkspacePath _ _ link) as [v | l | err] eqn:E;
    try reflexivity.
  rewrite resolveWorkspacePath_other; [reflexivity|].
  unfold resolveWorkspacePath in E.
  destruct (String.eqb_spec (charAt 0 link) ".") as [Hdot | Hdot].
  - destruct (negb _); [discriminate|].
    destruct (getWorkspace _) as [ws|] eqn:Hg; [|discriminate].
    inversion E; subst l. cbn [join posix].
    rewrite posix_join_absolute; [discriminate | now apply Habs |].
    intros ->. discriminate.
  - inversion E; subst l. exact Hdot.
Qed.

(** The check that can go is the one of the branch off Windows: with the
    POSIX [path] module and an absolute workspace root, the resolver that
    keeps only the check after the platform branch is the resolver, on
    every platform. *)
Lemma single_check_resolver_equal e fs cwd self link :
  absoluteRoot (_contextService self) ->
  _resolvePath_single_check
    {| env := e; path := posix cwd; fileSystem := fs |} self link
  = _resolvePath {| env := e; path := posix cwd; fileSystem := fs |} self link.
Proof.
  intros Habs. unfold _resolvePath, _resolvePath_single_check.
  destruct (Platform_eqb (_platform self) Windows); [reflexivity|].
  cbn [path env fileSystem].
  destruct (resolveWorkspacePath _ _ link) as [v | l | err] eqn:E;
    try reflexivity.
  unfold resolveWorkspacePath in E.
  destruct (String.eqb_spec (charAt 0 link) ".") as [Hdot | Hdot].
  - destruct (negb _); [discriminate|].
    destruct (getWorkspace _) as [ws|] eqn:Hg; [|discriminate].
    inversion E; subst l. cbn [join posix].
    rewrite resolveWorkspacePath_other; [reflexivity|].
    rewrite posix_join_absolute; [discriminate | now apply Habs |].
    intros ->. discriminate.
  - inversion E; subst l.
    rewrite resolveWorkspacePath_other by exact Hdot. reflexivity.
Qed.

(** On Linux, workspace at [/home/u/project], for [./foo]. *)
Lemma collapsed_resolver_equal_off_windows_witness :
  _resolvePath_collapsed (hostWith noHome everythingExists)
    (handlerOn Linux projectWorkspace) "./foo"
  = _resolvePath (hostWith noHome everythingExists)
      (handlerOn Linux projectWorkspace) "./foo".
Proof.
  apply (collapsed_resolver_equal_off_windows noHome everythingExists "/"
           (handlerOn Linux projectWorkspace) "./foo").
  - discriminate.
  - intros ws H. inversion H. reflexivity.
Defined.

(** C10: off Windows a link that starts with a tilde is not expanded: the
    one existence check is about the link as it is, and the outcome is the
    link itself when a regular file of that very name is there and [null]
    otherwise. *)
Theorem tilde_is_not_expanded_off_windows h self link :
  _platform self <> Windows ->
  charAt 0 link = "~" ->
  _resolvePath h self link = ([FileExists link], Normal (settled h link))
  /\ (settled h link = JsString link <-> fileSystem h link = RegularFile)
  /\ (settled h link = null <-> fileSystem h link <> RegularFile).
Proof.
  intros Hp Htilde.
  assert (Hdot : charAt 0 link <> ".") by (rewrite Htilde; discriminate).
  split.
  - unfold _resolvePath. rewrite (Platform_eqb_neq _ _ Hp).
    rewrite !resolveWorkspacePath_other by exact Hdot.
    apply openIfExists_run.
  - unfold settled.
    destruct (fileSystem h link); repeat split; intros; congruence.
Qed.

(** On Linux, even with HOMEDRIVE and HOMEPATH set. *)
Lemma tilde_is_not_expanded_off_windows_witness :
  _resolvePath (hostWith windowsHome everythingExists)
    (handlerOn Linux projectWorkspace) "~/foo"
  = ([FileExists "~/foo"], Normal (JsString "~/foo")).
Proof.
  apply (tilde_is_not_expanded_off_windows
           (hostWith windowsHome everythingExists)
           (handlerOn Linux projectWorkspace) "~/foo").
  - discriminate.
  - reflexivity.
Defined.

(** * Further properties of the resolver and of the handlers *)

Lemma resolveWorkspacePath_raise P ctx link e :
  resolveWorkspacePath P ctx link = Raise e ->
  hasWorkspace ctx = true /\ getWorkspace ctx = None.
Proof.
  unfold resolveWorkspacePath.
  destruct (String.eqb _ _); [|discriminate].
  destruct (hasWorkspace ctx); simpl; [|discriminate].
  destruct (getWorkspace ctx); [discriminate|]. auto.
Qed.

(** How a resolution can end, whatever the workspace service answers. *)
Lemma _resolvePath_ends h self link :
  _resolvePath h self link = ([], Normal undefined)
  \/ (exists e,
        _resolvePath h self link = ([], Throw e)
        /\ hasWorkspace (_contextService self) = true
        /\ getWorkspace (_contextService self) = None)
  \/ exists p,
       _resolvePath h self link = ([FileExists p], Normal (settled h p)).
Proof.
  unfold _resolvePath.
  assert (Hsecond : forall l,
    let run :=
      match resolveWorkspacePath (path h) (_contextService self) l with
      | Return v => ret v
      | Continue l' => openIfExists h l'
      | Raise e => throw e
      end in
    run = ([], Normal undefined)
    \/ (exists e, run = ([], Throw e)
          /\ hasWorkspace (_contextService self) = true
          /\ getWorkspace (_contextService self) = None)
    \/ exists p, run = ([FileExists p], Normal (settled h p))).
  { intros l. cbv zeta.
    destruct (resolveWorkspacePath _ _ l) as [v | l' | e] eqn:E.
    - apply resolveWorkspacePath_return in E. subst v. now left.
    - right. right. exists l'. apply openIfExists_run.
    - right. left. exists e. split; [reflexivity|].
      now apply resolveWorkspacePath_raise in E. }
  destruct (Platform_eqb (_platform self) Windows).
  - destruct (resolveHome_cases (env h) link) as [-> | [l ->]];
      [now left | apply Hsecond].
  - destruct (resolveWorkspacePath _ _ link) as [v | l | e] eqn:E.
    + apply resolveWorkspacePath_return in E. subst v. now left.
    + apply Hsecond.
    + right. left. exists e. split; [reflexivity|].
      now apply resolveWorkspacePath_raise in E.
Qed.

(** X1: a resolution never yields a path it has not checked: when it
    settles with a path, its one effect is the existence check of that very
    path, and the file system holds a regular file there. *)
Theorem resolved_path_was_checked h self link t p :
  _resolvePath h self link = (t, Normal (JsString p)) ->
  t = [FileExists p] /\ fileSystem h p = RegularFile.
Proof.
  intros Hrun.
  destruct (_resolvePath_ends h self link)
    as [H | [(e & H & _) | (q & H)]]; rewrite H in Hrun.
  - discriminate.
  - discriminate.
  - inversion Hrun as [[Ht Hv]]. unfold settled in Hv.
    destruct (fileSystem h q) eqn:Hq; inversion Hv; subst p. auto.
Qed.

Lemma resolved_path_was_checked_witness :
  [FileExists "/home/u/project/foo"] = [FileExists "/home/u/project/foo"]
  /\ fileSystem (hostWith noHome everythingExists) "/home/u/project/foo"
     = RegularFile.
Proof.
  apply (resolved_path_was_checked (hostWith noHome everythingExists)
           (handlerOn Linux projectWorkspace) "./foo").
  reflexivity.
Defined.

(** X2: a resolution asks the file system at most once and does nothing
    else; it throws only when the workspace service says a workspace is
    there and returns none, and then before any effect. *)
Theorem resolution_effects_and_exception h self link :
  (effects (_resolvePath h self link) = []
   \/ exists p, effects (_resolvePath h self link) = [FileExists p])
  /\ forall e,
       completion (_resolvePath h self link) = Throw e ->
       effects (_resolvePath h self link) = []
       /\ hasWorkspace (_contextService self) = true
       /\ getWorkspace (_contextService self) = None.
Proof.
  split.
  - destruct (_resolvePath_ends h self link)
      as [H | [(e & H & _) | (q & H)]]; rewrite H; simpl; eauto.
  - intros e He.
    destruct (_resolvePath_ends h self link)
      as [H | [(e' & H & Hws & Hg) | (q & H)]]; rewrite H in He |- *;
      try discriminate.
    repeat split; assumption.
Qed.

Lemma resolution_effects_and_exception_witness :
  effects (_resolvePath (hostWith noHome everythingExists)
             (handlerOn Linux
                {| hasWorkspace := true; getWorkspace := None |}) "./a")
  = []
  /\ hasWorkspace
       (_contextService
          (handlerOn Linux {| hasWorkspace := true; getWorkspace := None |}))
     = true
  /\ getWorkspace
       (_contextService
          (handlerOn Linux {| hasWorkspace := true; getWorkspace := None |}))
     = None.
Proof.
  apply (proj2 (resolution_effects_and_exception
                  (hostWith noHome everythingExists)
                  (handlerOn Linux
                     {| hasWorkspace := true; getWorkspace := None |})
                  "./a") "TypeError").
  reflexivity.
Defined.

(** X3: on every platform a link that starts neither with a dot nor, on
    Windows, with a tilde is checked as it is, the empty link included: no
    environment value, workspace or [path] function takes part. *)
Theorem other_links_are_checked_as_they_are h self link :
  charAt 0 link <> "." ->
  (_platform self = Windows -> charAt 0 link <> "~") ->
  _resolvePath h self link = ([FileExists link], Normal (settled h link)).
Proof.
  intros Hdot Htilde. unfold _resolvePath.
  destruct (Platform_eqb (_platform self) Windows) eqn:Hp.
  - apply Platform_eqb_eq in Hp. specialize (Htilde Hp).
    unfold resolveHome.
    destruct (String.eqb_spec (charAt 0 link) "~"); [contradiction|].
    rewrite resolveWorkspacePath_other by exact Hdot.
    apply openIfExists_run.
  - rewrite !resolveWorkspacePath_other by exact Hdot.
    apply openIfExists_run.
Qed.

Lemma other_links_are_checked_as_they_are_witness :
  _resolvePath (hostWith windowsHome everythingExists)
    (handlerOn Windows noWorkspace) "C:\a\b.txt"
  = ([FileExists "C:\a\b.txt"],
     Normal (settled (hostWith windowsHome everythingExists) "C:\a\b.txt")).
Proof.
  apply (other_links_are_checked_as_they_are
           (hostWith windowsHome everythingExists)
           (handlerOn Windows noWorkspace) "C:\a\b.txt").
  - discriminate.
  - intros _. discriminate.
Defined.

(** X4: on Windows a link that starts with a dot is joined to the
    workspace path, whatever the [path] module, and the joined path is the
    one checked: it is not looked at again, even if it starts with a
    dot. *)
Theorem windows_dot_relative_joins_workspace h self link ws :
  _platform self = Windows ->
  charAt 0 link = "." ->
  hasWorkspace (_contextService self) = true ->
  getWorkspace (_contextService self) = Some ws ->
  _resolvePath h self link
  = ([FileExists (join (path h) (resource_fsPath ws) link)],
     Normal (settled h (join (path h) (resource_fsPath ws) link))).
Proof.
  intros Hp Hdot Hws Hg.
  unfold _resolvePath, resolveHome, resolveWorkspacePath.
  rewrite Hp, Hdot, Hws, Hg. simpl. rewrite Hdot. simpl.
  apply openIfExists_run.
Qed.

Lemma windows_dot_relative_joins_workspace_witness :
  _resolvePath (hostWith noHome everythingExists)
    (handlerOn Windows projectWorkspace) "./foo"
  = ([FileExists "/home/u/project/foo"],
     Normal (settled (hostWith noHome everythingExists)
               "/home/u/project/foo")).
Proof.
  apply (windows_dot_relative_joins_workspace
           (hostWith noHome everythingExists)
           (handlerOn Windows projectWorkspace) "./foo"
           {| resource_fsPath := "/home/u/project" |});
    reflexivity.
Defined.

(** ** Clicks and validation of local links *)

(** The handler of the matcher that [registerLocalLinkHandler] adds. *)
Lemma registered_local_handler h self x m :
  linkMatchers (fst (registerLocalLinkHandler h self x))
  = linkMatchers x ++ [m] ->
  handler m
  = _wrapLinkHandler self
      (fun url => _handleLocalLink h self url ;;; ret undefined).
Proof.
  intros Hm. simpl in Hm. apply app_inv_head in Hm.
  inversion Hm; subst m. reflexivity.
Qed.

Lemma _handleLocalLink_opens h self link p :
  _resolvePath h self link = ([FileExists p], Normal (JsString p)) ->
  p <> EmptyString ->
  _handleLocalLink h self link
  = ([FileExists p; OpenEditor (normalize (path h) (resolve (path h) p))],
     Normal undefined).
Proof.
  intros Hrun Hp. unfold _handleLocalLink. rewrite Hrun. simpl.
  unfold truthy. destruct (String.eqb_spec p ""); [contradiction|].
  reflexivity.
Qed.

(** X5: a click with the modifier of the platform on the registered
    local-link matcher, for a link that resolves to a non-empty path, does
    one existence check and then asks the editor once, for the resolved
    path made absolute and normalised; the handler yields [undefined]. *)
Theorem modifier_click_opens_resolved_link h self x m event link t p :
  linkMatchers (fst (registerLocalLinkHandler h self x))
  = linkMatchers x ++ [m] ->
  (if Platform_eqb (_platform self) Mac then metaKey event else ctrlKey event)
  = true ->
  _resolvePath h self link = (t, Normal (JsString p)) ->
  p <> EmptyString ->
  handler m event link
  = ([FileExists p; OpenEditor (normalize (path h) (resolve (path h) p))],
     Normal undefined).
Proof.
  intros Hm Hmod Hrun Hp.
  rewrite (registered_local_handler _ _ _ _ Hm).
  rewrite click_with_modifier_runs_handler by exact Hmod.
  assert (Ht : t = [FileExists p]).
  { destruct (_resolvePath_ends h self link)
      as [H | [(e & H & _) | (q & H)]]; rewrite H in Hrun;
      try discriminate.
    inversion Hrun as [[Ht Hv]]. unfold settled in Hv.
    destruct (fileSystem h q); inversion Hv. reflexivity. }
  subst t.
  rewrite (_handleLocalLink_opens _ _ _ _ Hrun Hp). reflexivity.
Qed.

Lemma modifier_click_opens_resolved_link_witness :
  handler
    {| matcherId := 0;
       regex := _localLinkRegex (handlerOn Linux projectWorkspace);
       handler :=
         _wrapLinkHandler (handlerOn Linux projectWorkspace)
           (fun url =>
              _handleLocalLink (hostWith noHome everythingExists)
                (handlerOn Linux projectWorkspace) url ;;; ret undefined);
       options :=
         {| matchIndex := Some 1;
            validationCallback :=
              Some (_validateLocalLink (hostWith noHome everythingExists)
                      (handlerOn Linux projectWorkspace));
            priority := LOCAL_LINK_PRIORITY |} |}
    {| metaKey := false; ctrlKey := true |} "./a/../foo"
  = ([FileExists "/home/u/project/foo"; OpenEditor "/home/u/project/foo"],
     Normal undefined).
Proof.
  apply (modifier_click_opens_resolved_link
           (hostWith noHome everythingExists)
           (handlerOn Linux projectWorkspace) freshXterm _
           {| metaKey := false; ctrlKey := true |} "./a/../foo"
           [FileExists "/home/u/project/foo"] "/home/u/project/foo").
  - reflexivity.
  - reflexivity.
  - reflexivity.
  - discriminate.
Defined.

(** The three ways [_handleLocalLink] and [_validateLocalLink] can go,
    after the three ways a resolution can end. *)
Lemma local_link_runs h self link element :
  (_handleLocalLink h self link = ([], Normal undefined)
   /\ _validateLocalLink h self link element
      = ([ValidationCallback false], Normal tt))
  \/ (exists e,
        _handleLocalLink h self link = ([], Throw e)
        /\ _validateLocalLink h self link element = ([], Throw e))
  \/ (exists p,
        (fileSystem h p <> RegularFile \/ p = EmptyString)
        /\ _handleLocalLink h self link = ([FileExists p], Normal undefined)
        /\ _validateLocalLink h self link element
           = ([FileExists p; ValidationCallback false], Normal tt))
  \/ (exists p,
        fileSystem h p = RegularFile /\ p <> EmptyString
        /\ _handleLocalLink h self link
           = ([FileExists p;
               OpenEditor (normalize (path h) (resolve (path h) p))],
              Normal undefined)
        /\ _validateLocalLink h self link element
           = ([FileExists p; AddTooltipEventListeners element;
               ValidationCallback true], Normal tt)).
Proof.
  unfold _handleLocalLink, _validateLocalLink.
  destruct (_resolvePath_ends h self link)
    as [H | [(e & H & _) | (p & H)]]; rewrite H.
  - left. split; reflexivity.
  - right. left. exists e. split; reflexivity.
  - right. right. unfold settled.
    destruct (fileSystem h p) eqn:Hfs.
    + destruct (String.eqb_spec p "") as [-> | Hp].
      * left. exists "". repeat split; auto.
      * right. exists p. simpl. unfold truthy.
        destruct (String.eqb_spec p ""); [contradiction|].
        repeat split; auto.
    + left. exists p. repeat split. left. congruence.
    + left. exists p. repeat split. left. congruence.
Qed.

(** X6: whatever the event and the link, the registered local-link handler
    asks the editor only after a click with the modifier, only for a
    non-empty path that the one existence check found to be a regular
    file, and then once. *)
Theorem editor_opens_only_checked_files h self x m event link resource :
  linkMatchers (fst (registerLocalLinkHandler h self x))
  = linkMatchers x ++ [m] ->
  In (OpenEditor resource) (effects (handler m event link)) ->
  (if Platform_eqb (_platform self) Mac then metaKey event else ctrlKey event)
  = true
  /\ exists p,
       p <> EmptyString
       /\ fileSystem h p = RegularFile
       /\ resource = normalize (path h) (resolve (path h) p)
       /\ effects (handler m event link) = [FileExists p; OpenEditor resource].
Proof.
  intros Hm Hin. rewrite (registered_local_handler _ _ _ _ Hm) in *.
  destruct (if Platform_eqb (_platform self) Mac
            then metaKey event else ctrlKey event) eqn:Hmod.
  - split; [reflexivity|].
    rewrite click_with_modifier_runs_handler in * by exact Hmod.
    destruct (local_link_runs h self link 0)
      as [[H _] | [(e & H & _) | [(p & _ & H & _) | (p & Hfs & Hp & H & _)]]];
      rewrite H in *; simpl in Hin.
    + contradiction.
    + contradiction.
    + destruct Hin as [Hin | []]. discriminate.
    + destruct Hin as [Hin | [Hin | []]]; [discriminate|].
      inversion Hin; subst resource. exists p. repeat split; assumption.
  - rewrite _wrapLinkHandler_gate in Hin by exact Hmod.
    destruct Hin as [Hin | []]. discriminate.
Qed.

Lemma editor_opens_only_checked_files_witness :
  (if Platform_eqb (_platform (handlerOn Mac projectWorkspace)) Mac
   then metaKey {| metaKey := true; ctrlKey := false |}
   else ctrlKey {| metaKey := true; ctrlKey := false |}) = true
  /\ exists p,
       p <> EmptyString
       /\ fileSystem (hostWith noHome everythingExists) p = RegularFile
       /\ "/home/u/project/foo"
          = normalize (path (hostWith noHome everythingExists))
              (resolve (path (hostWith noHome everythingExists)) p)
       /\ effects
            (_wrapLinkHandler (handlerOn Mac projectWorkspace)
               (fun url =>
                  _handleLocalLink (hostWith noHome everythingExists)
                    (handlerOn Mac projectWorkspace) url ;;; ret undefined)
               {| metaKey := true; ctrlKey := false |} "./foo")
          = [FileExists p; OpenEditor "/home/u/project/foo"].
Proof.
  apply (editor_opens_only_checked_files
           (hostWith noHome everythingExists)
           (handlerOn Mac projectWorkspace) freshXterm
           {| matcherId := 0;
              regex := _localLinkRegex (handlerOn Mac projectWorkspace);
              handler :=
                _wrapLinkHandler (handlerOn Mac projectWorkspace)
                  (fun url =>
                     _handleLocalLink (hostWith noHome everythingExists)
                       (handlerOn Mac projectWorkspace) url ;;;
                     ret undefined);
              options :=
                {| matchIndex := Some 1;
                   validationCallback :=
                     Some (_validateLocalLink
                             (hostWith noHome everythingExists)
                             (handlerOn Mac projectWorkspace));
                   priority := LOCAL_LINK_PRIORITY |} |}
           {| metaKey := true; ctrlKey := false |} "./foo"
           "/home/u/project/foo").
  - reflexivity.
  - simpl. right. left. reflexivity.
Defined.

(** X7: the validation of a local link and the click on it agree: the
    callback is called with [true] exactly when [_handleLocalLink] asks
    the editor for the same link; the callback is called at most once, and
    the tooltip listeners are added exactly when it is called with
    [true], before the call. *)
Theorem validation_agrees_with_click h self link element :
  (In (ValidationCallback true)
      (effects (_validateLocalLink h self link element))
   <-> exists resource,
         In (OpenEditor resource) (effects (_handleLocalLink h self link)))
  /\ (In (ValidationCallback true)
         (effects (_validateLocalLink h self link element))
      <-> In (AddTooltipEventListeners element)
            (effects (_validateLocalLink h self link element)))
  /\ (forall b,
        In (ValidationCallback b)
           (effects (_validateLocalLink h self link element)) ->
        exists t,
          effects (_validateLocalLink h self link element)
          = t ++ [ValidationCallback b]
          /\ forall b', ~ In (ValidationCallback b') t).
Proof.
  assert (Hlast : forall t b b0,
    (forall b', ~ In (ValidationCallback b') t) ->
    In (ValidationCallback b) (t ++ [ValidationCallback b0]) ->
    exists t', t ++ [ValidationCallback b0] = t' ++ [ValidationCallback b]
               /\ forall b', ~ In (ValidationCallback b') t').
  { intros t b b0 Ht Hin. apply in_app_or in Hin.
    destruct Hin as [Hin | [Hin | []]]; [now apply Ht in Hin|].
    inversion Hin; subst b0. now exists t. }
  destruct (local_link_runs h self link element)
    as [[H V] | [(e & H & V) | [(p & _ & H & V) | (p & Hfs & Hp & H & V)]]];
    rewrite H, V; unfold effects, fst.
  - split; [|split].
    + split; [intros [F | []]; discriminate | intros [r []]].
    + split; intros [F | []]; discriminate.
    + intros b. apply (Hlast [] b false). intros b' [].
  - split; [|split].
    + split; [intros [] | intros [r []]].
    + split; intros [].
    + intros b [].
  - split; [|split].
    + split; [intros [F | [F | []]]; discriminate
             | intros [r [F | []]]; discriminate].
    + split; intros [F | [F | []]]; discriminate.
    + intros b. apply (Hlast [FileExists p] b false).
      intros b' [F | []]. discriminate.
  - split; [|split].
    + split; [intros _; eexists; right; left; reflexivity|].
      intros _. right. right. left. reflexivity.
    + split; [intros _; right; left; reflexivity|].
      intros _. right. right. left. reflexivity.
    + intros b.
      apply (Hlast [FileExists p; AddTooltipEventListeners element] b true).
      intros b' [F | [F | []]]; discriminate.
Qed.

Lemma validation_agrees_with_click_witness :
  exists resource,
    In (OpenEditor resource)
       (effects (_handleLocalLink (hostWith noHome everythingExists)
                   (handlerOn Linux projectWorkspace) "./foo")).
Proof.
  apply (proj1 (validation_agrees_with_click
                  (hostWith noHome everythingExists)
                  (handlerOn Linux projectWorkspace) "./foo" 0)).
  simpl. right. right. left. reflexivity.
Defined.






(** * Matches of the Unix-like pattern, unit by unit *)

Lemma UNIX_LIKE_LOCAL_LINK_REGEX_parts :
  UNIX_LIKE_LOCAL_LINK_REGEX
  = Group (Seq (Quant unixPrefix 0 (Some 1))
               (Quant unixSeparatorGroup 1 None)).
Proof. reflexivity. Qed.

Lemma WINDOWS_LOCAL_LINK_REGEX_parts :
  WINDOWS_LOCAL_LINK_REGEX
  = Group (Seq (Quant winPrefix 0 (Some 1))
               (Quant winSeparatorGroup 1 None)).
Proof. reflexivity. Qed.

Lemma compile_unixClass ch y k :
  compile unixClass (ch :: y) k
  = if pathCharacter excludedPathCharactersClause ch then k y else None.
Proof. reflexivity. Qed.

Lemma eqb_false_of_neq (a b : ascii) : a <> b -> Ascii.eqb a b = false.
Proof. intros H. now apply Ascii.eqb_neq. Qed.

(** The escaped clause at a unit that is no backslash: it reads nothing,
    or a plus sign. *)
Lemma compile_unixEscaped ch y k :
  ch <> "\"%char ->
  compile unixEscaped (ch :: y) k
  = match k (ch :: y) with
    | Some z => Some z
    | None => if Ascii.eqb "+" ch then k y else None
    end.
Proof.
  intros Hch. unfold unixEscaped. cbn -[Ascii.eqb].
  rewrite (eqb_false_of_neq "\" ch) by congruence. cbn -[Ascii.eqb].
  destruct (k (ch :: y)); reflexivity.
Qed.

Lemma compile_unixEscaped_end k :
  compile unixEscaped [] k = k [].
Proof. simpl. destruct (k []); reflexivity. Qed.

Lemma pathCharacter_false_neq ch (d : ascii) :
  pathCharacter excludedPathCharactersClause d = true ->
  pathCharacter excludedPathCharactersClause ch = false ->
  ch <> d.
Proof. intros Hd Hch ->. congruence. Qed.

Lemma compile_unixContentGroup x k :
  compile unixContentGroup x k
  = match compile unixClass x k with
    | Some z => Some z
    | None => compile unixEscaped x k
    end.
Proof. reflexivity. Qed.

(** The content group where the content stops, under a continuation that
    refuses a state as long as the one it is given. *)
Lemma unixContentGroup_stops rest k :
  stopsAt unixContent rest ->
  k rest = None ->
  compile unixContentGroup rest k = None.
Proof.
  intros Hstop Hk. rewrite compile_unixContentGroup.
  destruct rest as [|h t].
  - change (compile unixClass [] k) with (@None State).
    rewrite compile_unixEscaped_end. exact Hk.
  - simpl in Hstop. unfold unixContent in Hstop.
    apply Bool.orb_false_iff in Hstop. destruct Hstop as [Hp Hplus].
    rewrite compile_unixClass, Hp.
    rewrite compile_unixEscaped
      by (apply (pathCharacter_false_neq h "\"); [reflexivity | exact Hp]).
    rewrite Hk. rewrite Ascii.eqb_sym, Hplus. reflexivity.
Qed.

(** The content group at a content unit, when going on after the unit
    succeeds. *)
Lemma unixContentGroup_reads ch y k z :
  unixContent ch = true ->
  k (ch :: y) = None \/ k (ch :: y) = Some z ->
  k y = Some z ->
  compile unixContentGroup (ch :: y) k = Some z.
Proof.
  intros Hch Hsame Hnext. rewrite compile_unixContentGroup.
  rewrite compile_unixClass.
  destruct (pathCharacter excludedPathCharactersClause ch) eqn:Hp.
  - rewrite Hnext. reflexivity.
  - unfold unixContent in Hch. rewrite Hp in Hch. simpl in Hch.
    apply Ascii.eqb_eq in Hch. subst ch.
    rewrite compile_unixEscaped by discriminate.
    destruct Hsame as [-> | ->]; [|reflexivity].
    simpl. exact Hnext.
Qed.

Lemma RepeatMatcher_star m fuel x c :
  RepeatMatcher m (S fuel) 0 None x c
  = match m x (iterate m fuel 0 None x c) with
    | Some z => Some z
    | None => c x
    end.
Proof. reflexivity. Qed.

Lemma RepeatMatcher_plus m fuel x c :
  RepeatMatcher m (S fuel) 1 None x c
  = m x (fun y => RepeatMatcher m fuel 0 None y c).
Proof. reflexivity. Qed.

Lemma iterate_same m fuel x c :
  iterate m fuel 0 None x c x = None.
Proof. unfold iterate. simpl. now rewrite Nat.eqb_refl. Qed.

Lemma iterate_shorter m fuel ch y c :
  iterate m fuel 0 None (ch :: y) c y = RepeatMatcher m fuel 0 None y c.
Proof.
  unfold iterate. simpl.
  destruct (Nat.eqb_spec (List.length y) (S (List.length y))); [lia|].
  reflexivity.
Qed.

(** The content of a group, once [min] is zero: the repetition reads the
    whole run of content units and goes on where the run stops. *)
Lemma unixContent_run run : forall rest k z fuel,
  Forall (fun ch => unixContent ch = true) run ->
  stopsAt unixContent rest ->
  k rest = Some z ->
  List.length (run ++ rest) <= fuel ->
  RepeatMatcher (compile unixContentGroup) fuel 0 None (run ++ rest) k
  = Some z.
Proof.
  induction run as [|ch run IH]; intros rest k z fuel Hrun Hstop Hk Hfuel.
  - rewrite app_nil_l. destruct fuel as [|fuel];
      [rewrite RepeatMatcher_fuel_0; exact Hk|].
    rewrite RepeatMatcher_star.
    rewrite unixContentGroup_stops;
      [exact Hk | exact Hstop | apply iterate_same].
  - inversion Hrun as [|? ? Hch Hrun']; subst.
    destruct fuel as [|fuel]; [simpl in Hfuel; lia|].
    rewrite <- app_comm_cons, RepeatMatcher_star.
    rewrite (unixContentGroup_reads ch (run ++ rest) _ z Hch);
      [reflexivity | left; apply iterate_same |].
    rewrite iterate_shorter. apply IH; try assumption.
    simpl in Hfuel. lia.
Qed.

(** The content of a group from its start: the same run, which may be
    empty. *)
Lemma unixContent_group run rest k z fuel :
  Forall (fun ch => unixContent ch = true) run ->
  stopsAt unixContent rest ->
  k rest = Some z ->
  List.length (run ++ rest) <= fuel ->
  RepeatMatcher (compile unixContentGroup) (S fuel) 1 None (run ++ rest) k
  = Some z.
Proof.
  intros Hrun Hstop Hk Hfuel. rewrite RepeatMatcher_plus.
  assert (Hhere : RepeatMatcher (compile unixContentGroup) fuel 0 None
                    (run ++ rest) k = Some z)
    by now apply unixContent_run.
  destruct run as [|ch run].
  - rewrite app_nil_l in *. rewrite compile_unixContentGroup.
    destruct rest as [|h t].
    + change (compile unixClass [] _) with (@None State).
      rewrite compile_unixEscaped_end. exact Hhere.
    + simpl in Hstop. unfold unixContent in Hstop.
      apply Bool.orb_false_iff in Hstop. destruct Hstop as [Hp Hplus].
      rewrite compile_unixClass, Hp.
      rewrite compile_unixEscaped
        by (apply (pathCharacter_false_neq h "\"); [reflexivity | exact Hp]).
      rewrite Hhere. reflexivity.
  - inversion Hrun as [|? ? Hch Hrun']; subst.
    rewrite <- app_comm_cons in *.
    apply unixContentGroup_reads; [exact Hch | right; exact Hhere |].
    apply unixContent_run; try assumption. simpl in Hfuel. lia.
Qed.

Lemma unixSeparatorGroup_stops rest c :
  stopsAt unixContent rest ->
  compile unixSeparatorGroup rest c = None.
Proof.
  intros Hstop. destruct rest as [|h t]; [reflexivity|].
  simpl in Hstop. unfold unixContent in Hstop.
  apply Bool.orb_false_iff in Hstop. destruct Hstop as [Hp _].
  unfold unixSeparatorGroup. cbn -[Ascii.eqb unixContentGroup].
  rewrite (eqb_false_of_neq "/" h); [reflexivity|].
  intros <-. discriminate.
Qed.

(** The separator groups of the Unix-like pattern on a slash, a run of
    content units and a text at which the content stops: one group, which
    reads the slash and the run. *)
Lemma unixSeparatorGroups run rest k z :
  Forall (fun ch => unixContent ch = true) run ->
  stopsAt unixContent rest ->
  k rest = Some z ->
  compile (Quant unixSeparatorGroup 1 None) ("/"%char :: run ++ rest) k
  = Some z.
Proof.
  intros Hrun Hstop Hk.
  change (compile (Quant unixSeparatorGroup 1 None)
            ("/"%char :: run ++ rest) k)
    with (RepeatMatcher (compile unixSeparatorGroup)
            (S (S (List.length (run ++ rest)))) 1 None
            ("/"%char :: run ++ rest) k).
  rewrite RepeatMatcher_plus.
  change (compile unixSeparatorGroup ("/"%char :: run ++ rest) ?c)
    with (RepeatMatcher (compile unixContentGroup)
            (S (List.length (run ++ rest))) 1 None (run ++ rest) c).
  apply unixContent_group; try assumption; [|lia].
  rewrite RepeatMatcher_star.
  rewrite unixSeparatorGroup_stops by exact Hstop. exact Hk.
Qed.

(** The optional prefix before a slash. *)
Lemma unixPrefix_optional prefix y c z :
  In prefix unixPrefixes ->
  c ("/"%char :: y) = Some z ->
  compile (Quant unixPrefix 0 (Some 1)) (prefix ++ "/"%char :: y) c = Some z.
Proof.
  intros Hin Hc. simpl in Hin.
  destruct Hin as [<- | [<- | [<- | [<- | []]]]]; cbn;
    repeat match goal with
           | |- context [(?a =? ?b)%nat] =>
               destruct (Nat.eqb_spec a b); [lia|]
           end;
    rewrite ?Hc; reflexivity.
Qed.

(** No match of the Unix-like pattern starts at a unit that is neither a
    slash, a dot nor a tilde, nor at the end of the input. *)
Lemma unix_no_match_at_plain ch y k :
  unixPlain ch = true ->
  compile UNIX_LIKE_LOCAL_LINK_REGEX (ch :: y) k = None.
Proof.
  intros Hplain. unfold unixPlain in Hplain.
  apply Bool.negb_true_iff in Hplain. cbn -[Ascii.eqb] in Hplain.
  apply Bool.orb_false_iff in Hplain. destruct Hplain as [Hslash Hplain].
  apply Bool.orb_false_iff in Hplain. destruct Hplain as [Hdot Hplain].
  apply Bool.orb_false_iff in Hplain. destruct Hplain as [Htilde _].
  rewrite Ascii.eqb_sym in Hslash, Hdot, Htilde.
  rewrite UNIX_LIKE_LOCAL_LINK_REGEX_parts.
  cbn -[Ascii.eqb unixContentGroup].
  rewrite Hslash, Hdot, Htilde. reflexivity.
Qed.

Lemma unix_no_match_at_end k :
  compile UNIX_LIKE_LOCAL_LINK_REGEX [] k = None.
Proof. reflexivity. Qed.

(** [exec] passes over the units at which the matcher fails. *)
Lemma execFrom_skip (m : Matcher) (p : ascii -> bool) :
  (forall ch y k, p ch = true -> m (ch :: y) k = None) ->
  forall pre x i,
    Forall (fun ch => p ch = true) pre ->
    execFrom m i (pre ++ x) = execFrom m (i + List.length pre) x.
Proof.
  intros Hm. induction pre as [|ch pre IH]; intros x i Hpre.
  - simpl. now rewrite Nat.add_0_r.
  - inversion Hpre as [|? ? Hch Hpre']; subst.
    rewrite <- app_comm_cons, execFrom_unfold.
    rewrite Hm by exact Hch. rewrite IH by exact Hpre'.
    simpl. f_equal. lia.
Qed.

Lemma execFrom_here (m : Matcher) i w rest :
  m (w ++ rest) (fun y => Some y) = Some rest ->
  execFrom m i (w ++ rest)
  = Some {| index := i; match0 := string_of_list_ascii w |}.
Proof.
  intros Hm. rewrite execFrom_unfold, Hm, firstn_prefix. reflexivity.
Qed.

(** X8: what the Unix-like pattern finds first.  In a text made of units
    that are no slash, dot or tilde, then an optional prefix ([.], [..]
    or [~]), a slash, a run of units that the excluded-characters clause
    accepts or that are plus signs, and a rest that does not go on with
    such a unit, the match starts at the prefix and is the prefix, the
    slash and the whole run: the run may be empty, a plus sign counts as
    content, and a backslash does not carry the match over an excluded
    unit. *)
Theorem unix_first_match pre prefix run rest :
  Forall (fun ch => unixPlain ch = true) pre ->
  In prefix unixPrefixes ->
  Forall (fun ch => unixContent ch = true) run ->
  stopsAt unixContent rest ->
  exec UNIX_LIKE_LOCAL_LINK_REGEX
    (string_of_list_ascii (pre ++ prefix ++ "/"%char :: run ++ rest))
  = Some {| index := List.length pre;
            match0 := string_of_list_ascii (prefix ++ "/"%char :: run) |}.
Proof.
  intros Hpre Hprefix Hrun Hstop. unfold exec.
  rewrite list_ascii_of_string_of_list_ascii.
  rewrite (execFrom_skip _ unixPlain)
    by (exact unix_no_match_at_plain || exact Hpre).
  replace (prefix ++ "/"%char :: run ++ rest)
    with ((prefix ++ "/"%char :: run) ++ rest)
    by (rewrite <- app_assoc; reflexivity).
  apply execFrom_here.
  rewrite <- app_assoc, <- app_comm_cons.
  rewrite UNIX_LIKE_LOCAL_LINK_REGEX_parts.
  change (compile (Group (Seq ?a ?b)) ?x ?k)
    with (compile a x (fun y => compile b y k)).
  apply unixPrefix_optional; [exact Hprefix|].
  now apply unixSeparatorGroups.
Qed.

Lemma unix_first_match_witness :
  exec UNIX_LIKE_LOCAL_LINK_REGEX "at ./src/c++/a\ b.ts:12"
  = Some {| index := 3; match0 := "./src/c++/a\" |}.
Proof.
  apply (unix_first_match
           (list_ascii_of_string "at ") (list_ascii_of_string ".")
           (list_ascii_of_string "src/c++/a\")
           (list_ascii_of_string " b.ts:12")).
  - repeat constructor.
  - simpl. auto.
  - repeat constructor.
  - reflexivity.
Defined.

(** * Matches of the Windows pattern, unit by unit *)

Lemma compile_winContentGroup ch y k :
  compile winContentGroup (ch :: y) k
  = if winContent ch then k y else None.
Proof. reflexivity. Qed.

Lemma winContentGroup_stops rest k :
  stopsAt winContent rest -> compile winContentGroup rest k = None.
Proof.
  intros Hstop. destruct rest as [|h t]; [reflexivity|].
  simpl in Hstop. rewrite compile_winContentGroup, Hstop. reflexivity.
Qed.

(** The content of a group of the Windows pattern, once [min] is zero. *)
Lemma winContent_run run : forall rest k z fuel,
  Forall (fun ch => winContent ch = true) run ->
  stopsAt winContent rest ->
  k rest = Some z ->
  List.length (run ++ rest) <= fuel ->
  RepeatMatcher (compile winContentGroup) fuel 0 None (run ++ rest) k
  = Some z.
Proof.
  induction run as [|ch run IH]; intros rest k z fuel Hrun Hstop Hk Hfuel.
  - rewrite app_nil_l. destruct fuel as [|fuel];
      [rewrite RepeatMatcher_fuel_0; exact Hk|].
    rewrite RepeatMatcher_star, winContentGroup_stops by exact Hstop.
    exact Hk.
  - inversion Hrun as [|? ? Hch Hrun']; subst.
    destruct fuel as [|fuel]; [simpl in Hfuel; lia|].
    rewrite <- app_comm_cons, RepeatMatcher_star.
    rewrite compile_winContentGroup, Hch, iterate_shorter.
    rewrite (IH rest k z); try assumption; [reflexivity|].
    simpl in Hfuel. lia.
Qed.

(** The content of a group from its start: one unit at least. *)
Lemma winContent_group ch run rest k z fuel :
  Forall (fun ch => winContent ch = true) (ch :: run) ->
  stopsAt winContent rest ->
  k rest = Some z ->
  List.length (run ++ rest) <= fuel ->
  RepeatMatcher (compile winContentGroup) (S fuel) 1 None
    (ch :: run ++ rest) k
  = Some z.
Proof.
  intros Hrun Hstop Hk Hfuel.
  inversion Hrun as [|? ? Hch Hrun']; subst.
  rewrite RepeatMatcher_plus, compile_winContentGroup, Hch.
  now apply winContent_run.
Qed.

Lemma winContent_group_stops rest k :
  stopsAt winContent rest ->
  compile (Quant winContentGroup 1 None) rest k = None.
Proof.
  intros Hstop.
  change (compile (Quant winContentGroup 1 None) rest k)
    with (RepeatMatcher (compile winContentGroup)
            (S (List.length rest)) 1 None rest k).
  rewrite RepeatMatcher_plus. now apply winContentGroup_stops.
Qed.

(** A separator group of the Windows pattern on a separator. *)
Lemma compile_winSeparatorGroup sep y k :
  sep = "\"%char \/ sep = "/"%char ->
  compile winSeparatorGroup (sep :: y) k
  = compile (Quant winContentGroup 1 None) y k.
Proof.
  intros [-> | ->].
  - unfold winSeparatorGroup, winSeparator.
    cbn -[winContentGroup RepeatMatcher].
    destruct (RepeatMatcher _ _ _ _ _ _); reflexivity.
  - reflexivity.
Qed.

Lemma winContent_backslash : winContent "\" = true.
Proof. reflexivity. Qed.

Lemma winContent_slash : winContent "/" = false.
Proof. reflexivity. Qed.

(** No separator group where the groups stop. *)
Lemma winSeparatorGroup_stops rest k :
  winStops rest -> compile winSeparatorGroup rest k = None.
Proof.
  intros Hstop. destruct rest as [|h t]; [reflexivity|].
  destruct Hstop as [Hh Hslash].
  destruct (Ascii.eqb_spec h "/") as [-> | Hne].
  - rewrite compile_winSeparatorGroup by now right.
    apply winContent_group_stops. now apply Hslash.
  - unfold winSeparatorGroup, winSeparator.
    cbn -[winContentGroup RepeatMatcher Ascii.eqb].
    rewrite (eqb_false_of_neq "/" h) by congruence.
    rewrite (eqb_false_of_neq "\" h); [reflexivity|].
    intros <-. rewrite winContent_backslash in Hh. discriminate.
Qed.

Lemma stopsAt_slashed runs rest :
  winStops rest -> stopsAt winContent (slashed runs ++ rest).
Proof.
  intros Hstop. destruct runs as [|r runs].
  - simpl. destruct rest as [|h t]; [exact I | apply Hstop].
  - reflexivity.
Qed.

(** The groups after the first: each reads a slash and a run of content. *)
Lemma winGroups_more runs : forall rest k z fuel,
  Forall (fun r => r <> [] /\ Forall (fun ch => winContent ch = true) r)
    runs ->
  winStops rest ->
  k rest = Some z ->
  List.length (slashed runs ++ rest) <= fuel ->
  RepeatMatcher (compile winSeparatorGroup) fuel 0 None
    (slashed runs ++ rest) k
  = Some z.
Proof.
  induction runs as [|r runs IH]; intros rest k z fuel Hruns Hstop Hk Hfuel.
  - change (slashed [] ++ rest) with rest.
    destruct fuel as [|fuel];
      [rewrite RepeatMatcher_fuel_0; exact Hk|].
    rewrite RepeatMatcher_star, winSeparatorGroup_stops by exact Hstop.
    exact Hk.
  - inversion Hruns as [|? ? [Hne Hr] Hruns']; subst.
    destruct r as [|ch r]; [contradiction|].
    change (slashed ((ch :: r) :: runs) ++ rest)
      with ("/"%char :: ch :: (r ++ slashed runs) ++ rest) in *.
    rewrite <- app_assoc in *.
    destruct fuel as [|fuel]; [simpl in Hfuel; lia|].
    rewrite RepeatMatcher_star.
    rewrite compile_winSeparatorGroup by now right.
    change (compile (Quant winContentGroup 1 None) ?x ?c)
      with (RepeatMatcher (compile winContentGroup)
              (S (List.length x)) 1 None x c).
    simpl List.length.
    rewrite (winContent_group ch r (slashed runs ++ rest) _ z);
      [reflexivity | exact Hr | now apply stopsAt_slashed | | lia].
    unfold iterate. simpl List.length.
    destruct (Nat.eqb_spec (List.length (slashed runs ++ rest))
                (S (S (List.length (r ++ slashed runs ++ rest)))))
      as [E | _].
    { rewrite !length_app in E. lia. }
    simpl. apply IH; try assumption.
    simpl in Hfuel. rewrite !length_app in *. lia.
Qed.

(** The groups of the Windows pattern from the first separator on. *)
Lemma winGroups sep ch run runs rest k z :
  sep = "\"%char \/ sep = "/"%char ->
  Forall (fun ch => winContent ch = true) (ch :: run) ->
  Forall (fun r => r <> [] /\ Forall (fun ch => winContent ch = true) r)
    runs ->
  winStops rest ->
  k rest = Some z ->
  compile (Quant winSeparatorGroup 1 None)
    (sep :: ch :: run ++ slashed runs ++ rest) k
  = Some z.
Proof.
  intros Hsep Hrun Hruns Hstop Hk.
  change (compile (Quant winSeparatorGroup 1 None) ?x k)
    with (RepeatMatcher (compile winSeparatorGroup)
            (S (List.length x)) 1 None x k).
  rewrite RepeatMatcher_plus.
  rewrite compile_winSeparatorGroup by exact Hsep.
  change (compile (Quant winContentGroup 1 None) ?x ?c)
    with (RepeatMatcher (compile winContentGroup)
            (S (List.length x)) 1 None x c).
  simpl List.length.
  apply winContent_group;
    [exact Hrun | now apply stopsAt_slashed | | lia].
  apply winGroups_more; try assumption.
  simpl. rewrite !length_app. lia.
Qed.

(** The optional prefix of the Windows pattern before a separator. *)
Lemma winPrefix_optional prefix sep y c z :
  winPrefixes prefix ->
  sep = "\"%char \/ sep = "/"%char ->
  c (sep :: y) = Some z ->
  compile (Quant winPrefix 0 (Some 1)) (prefix ++ sep :: y) c = Some z.
Proof.
  intros [Hin | (l & Hl & ->)] Hsep Hc.
  - simpl in Hin.
    destruct Hin as [<- | [<- | [<- | [<- | []]]]];
      destruct Hsep as [-> | ->]; cbn;
      repeat match goal with
             | |- context [(?a =? ?b)%nat] =>
                 destruct (Nat.eqb_spec a b); [lia|]
             end;
      rewrite ?Hc; reflexivity.
  - unfold winPrefix. cbn -[classMatches Ascii.eqb].
    change (classMatches false [ClassRange "a" "z"; ClassRange "A" "Z"] l)
      with (driveLetter l).
    rewrite Hl. cbn -[Ascii.eqb].
    destruct (Nat.eqb_spec (List.length y) (S (S (List.length y))));
      [lia|].
    cbn -[Ascii.eqb]. rewrite Hc. reflexivity.
Qed.

(** No match of the Windows pattern starts at a unit that is neither a
    separator, a dot, a tilde nor a colon, when no colon follows. *)
Lemma windows_no_match_at_plain ch y k :
  winPlain ch = true ->
  stopsAt (Ascii.eqb ":") y ->
  compile WINDOWS_LOCAL_LINK_REGEX (ch :: y) k = None.
Proof.
  intros Hplain Hy. unfold winPlain in Hplain.
  apply Bool.negb_true_iff in Hplain. cbn -[Ascii.eqb] in Hplain.
  apply Bool.orb_false_iff in Hplain. destruct Hplain as [Hback Hplain].
  apply Bool.orb_false_iff in Hplain. destruct Hplain as [Hslash Hplain].
  apply Bool.orb_false_iff in Hplain. destruct Hplain as [Hdot Hplain].
  apply Bool.orb_false_iff in Hplain. destruct Hplain as [Htilde _].
  rewrite Ascii.eqb_sym in Hback, Hslash, Hdot, Htilde.
  rewrite WINDOWS_LOCAL_LINK_REGEX_parts.
  unfold winPrefix, winSeparatorGroup, winSeparator.
  cbn -[Ascii.eqb classMatches winContentGroup].
  rewrite Hback, Hslash, Hdot, Htilde.
  destruct (classMatches false _ ch); [|reflexivity].
  destruct y as [|h t]; [reflexivity|].
  unfold stopsAt in Hy. cbn -[Ascii.eqb classMatches winContentGroup].
  rewrite Hy. reflexivity.
Qed.

(** [exec] passes over the units at which the matcher fails, where the
    failure may depend on what follows the unit. *)
Lemma execFrom_skip_before (m : Matcher) (p : ascii -> bool)
  (q : list ascii -> Prop) :
  (forall ch y k, p ch = true -> q y -> m (ch :: y) k = None) ->
  (forall ch y, p ch = true -> q y -> q (ch :: y)) ->
  forall pre x i,
    Forall (fun ch => p ch = true) pre ->
    q x ->
    execFrom m i (pre ++ x) = execFrom m (i + List.length pre) x.
Proof.
  intros Hm Hq. induction pre as [|ch pre IH]; intros x i Hpre Hx.
  - simpl. now rewrite Nat.add_0_r.
  - inversion Hpre as [|? ? Hch Hpre']; subst.
    assert (Hrest : q (pre ++ x)).
    { clear IH Hpre. induction pre as [|c pre IHp]; [exact Hx|].
      inversion Hpre'; subst. simpl. apply Hq; auto. }
    rewrite <- app_comm_cons, execFrom_unfold.
    rewrite Hm by assumption. rewrite IH by assumption.
    simpl. f_equal. lia.
Qed.

Lemma winPlain_no_colon ch : winPlain ch = true -> Ascii.eqb ":" ch = false.
Proof.
  intros H. apply Ascii.eqb_neq. intros <-. discriminate.
Qed.

(** X9: what the Windows pattern finds first.  In a text made of units
    that are no separator, dot, tilde or colon, then an optional prefix (a
    drive letter and a colon, [.], [..] or [~]), a backslash or a slash,
    a run of one or more units that the excluded-characters clause
    accepts (the backslash is one), any number of further runs each after
    a slash, and a rest that goes on neither with such a unit nor with a
    slash and such a unit, the match starts at the prefix and is all of
    the prefix, the separator and the runs. *)
Theorem windows_first_match pre prefix sep ch run runs rest :
  Forall (fun c => winPlain c = true) pre ->
  winPrefixes prefix ->
  sep = "\"%char \/ sep = "/"%char ->
  Forall (fun c => winContent c = true) (ch :: run) ->
  Forall (fun r => r <> [] /\ Forall (fun c => winContent c = true) r)
    runs ->
  winStops rest ->
  exec WINDOWS_LOCAL_LINK_REGEX
    (string_of_list_ascii
       (pre ++ prefix ++ sep :: ch :: run ++ slashed runs ++ rest))
  = Some {| index := List.length pre;
            match0 := string_of_list_ascii
                        (prefix ++ sep :: ch :: run ++ slashed runs) |}.
Proof.
  intros Hpre Hprefix Hsep Hrun Hruns Hstop. unfold exec.
  rewrite list_ascii_of_string_of_list_ascii.
  rewrite (execFrom_skip_before _ winPlain (stopsAt (Ascii.eqb ":"))).
  - replace (prefix ++ sep :: ch :: run ++ slashed runs ++ rest)
      with ((prefix ++ sep :: ch :: run ++ slashed runs) ++ rest)
      by (rewrite <- app_assoc; simpl; now rewrite <- app_assoc).
    apply execFrom_here.
    rewrite <- app_assoc, <- !app_comm_cons, <- app_assoc.
    rewrite WINDOWS_LOCAL_LINK_REGEX_parts.
    change (compile (Group (Seq ?a ?b)) ?x ?k)
      with (compile a x (fun y => compile b y k)).
    apply winPrefix_optional; [exact Hprefix | exact Hsep |].
    now apply winGroups.
  - exact windows_no_match_at_plain.
  - intros c y Hc _. simpl. now apply winPlain_no_colon.
  - exact Hpre.
  - destruct Hprefix as [Hin | (l & Hl & ->)].
    + simpl in Hin.
      destruct Hin as [<- | [<- | [<- | [<- | []]]]];
        try reflexivity.
      destruct Hsep as [-> | ->]; reflexivity.
    + unfold stopsAt. rewrite <- app_comm_cons.
      apply Ascii.eqb_neq. intros <-. discriminate.
Qed.

Lemma windows_first_match_witness :
  exec WINDOWS_LOCAL_LINK_REGEX "in c:\src\a b/x.ts/y.ts: 3"
  = Some {| index := 3; match0 := "c:\src\a" |}
  /\ exec WINDOWS_LOCAL_LINK_REGEX "see ./a/x.ts/y.ts/ now"
     = Some {| index := 4; match0 := "./a/x.ts/y.ts" |}.
Proof.
  split.
  - apply (windows_first_match
             (list_ascii_of_string "in ") (list_ascii_of_string "c:")
             "\"%char "s"%char (list_ascii_of_string "rc\a") []
             (list_ascii_of_string " b/x.ts/y.ts: 3")).
    + repeat constructor.
    + right. exists "c"%char. split; reflexivity.
    + now left.
    + repeat constructor.
    + constructor.
    + split; [reflexivity | discriminate].
  - apply (windows_first_match
             (list_ascii_of_string "see ") (list_ascii_of_string ".")
             "/"%char "a"%char []
             [list_ascii_of_string "x.ts"; list_ascii_of_string "y.ts"]
             (list_ascii_of_string "/ now")).
    + repeat constructor.
    + left. simpl. auto.
    + now right.
    + repeat constructor.
    + repeat constructor; discriminate.
    + split; [reflexivity | intros _; reflexivity].
Defined.

(** * The shape of every match *)

(** An optional part is read or not. *)
Lemma Matches_optional r x y :
  Matches (Quant r 0 (Some 1)) x y -> x = y \/ Matches r x y.
Proof.
  intros H. inversion H as [| | | | | | | | | |? ? ? ? y1 ? Hmax H1 H2];
    subst; [now left|].
  right. simpl in H2.
  inversion H2 as [| | | | | | | | | |? ? ? ? ? ? Hmax' ? ?]; subst;
    [assumption | assumption | now contradiction Hmax'].
Qed.

Lemma Matches_unixPrefix x y :
  Matches unixPrefix x y ->
  exists p, In p [["."]; ["."; "."]; ["~"]]%char /\ x = p ++ y.
Proof.
  intros H. unfold unixPrefix in H.
  apply Matches_Group_inv, Matches_Disj_inv in H. destruct H as [H | H].
  - apply Matches_Seq_inv in H. destruct H as (x1 & Hdot & Hopt).
    apply Matches_Char_inv in Hdot. subst x.
    apply Matches_optional in Hopt. destruct Hopt as [-> | Hopt].
    + exists ["."%char]. simpl. auto.
    + apply Matches_Char_inv in Hopt. subst x1.
      exists ["."; "."]%char. simpl. auto.
  - apply Matches_Char_inv in H. subst x.
    exists ["~"%char]. simpl. auto.
Qed.

(** X10: every match of the Unix-like pattern is an optional prefix ([.],
    [..] or [~]), a slash, and units that the excluded-characters clause
    accepts or that are one of [+], [!], the backquote and [&]. *)
Theorem unix_match_shape input m :
  exec UNIX_LIKE_LOCAL_LINK_REGEX input = Some m ->
  exists prefix rest,
    list_ascii_of_string (match0 m) = prefix ++ "/"%char :: rest
    /\ In prefix unixPrefixes
    /\ Forall (fun ch => unixUnit ch = true) rest.
Proof.
  intros H. apply exec_sound in H.
  destruct H as (pre & w & post & _ & _ & -> & Hr).
  rewrite list_ascii_of_string_of_list_ascii.
  rewrite UNIX_LIKE_LOCAL_LINK_REGEX_parts in Hr.
  apply Matches_Group_inv, Matches_Seq_inv in Hr.
  destruct Hr as (y0 & Hprefix & Hgroups).
  assert (Hp : exists prefix, In prefix unixPrefixes /\ w ++ post = prefix ++ y0).
  { apply Matches_optional in Hprefix. destruct Hprefix as [-> | Hprefix].
    - exists []. split; [now left | reflexivity].
    - apply Matches_unixPrefix in Hprefix.
      destruct Hprefix as (p & Hin & ->). exists p. split; [|reflexivity].
      simpl in Hin |- *. tauto. }
  destruct Hp as (prefix & Hin & Hw).
  apply Matches_Plus_inv in Hgroups.
  destruct Hgroups as (y1 & Hgroup & Hmore).
  unfold unixSeparatorGroup in Hgroup.
  apply Matches_Group_inv, Matches_Seq_inv in Hgroup.
  destruct Hgroup as (y2 & Hsep & Hcontent).
  apply Matches_Char_inv in Hsep. subst y0.
  assert (Hsg : reads unixUnit unixSeparatorGroup)
    by exact (proj2 UNIX_LIKE_LOCAL_LINK_REGEX_reads).
  assert (Hcg : reads unixUnit unixContentGroup) by exact (proj2 Hsg).
  destruct (Matches_reads unixUnit (Quant unixContentGroup 1 None) _ _
              Hcg Hcontent) as (w1 & -> & Hw1).
  destruct (Matches_reads unixUnit (Quant unixSeparatorGroup 0 None) _ _
              Hsg Hmore) as (w2 & -> & Hw2).
  exists prefix, (w1 ++ w2). split; [|split; [exact Hin|]].
  - apply (app_inv_tail post). rewrite Hw.
    rewrite <- !app_assoc. simpl. now rewrite <- !app_assoc.
  - apply Forall_app. now split.
Qed.

Lemma unix_match_shape_witness :
  exists prefix rest,
    list_ascii_of_string "./a+b" = prefix ++ "/"%char :: rest
    /\ In prefix unixPrefixes
    /\ Forall (fun ch => unixUnit ch = true) rest.
Proof.
  apply (unix_match_shape "see ./a+b (x)" {| index := 4; match0 := "./a+b" |}).
  vm_compute. reflexivity.
Defined.

Lemma WINDOWS_LOCAL_LINK_REGEX_reads :
  reads winUnit WINDOWS_LOCAL_LINK_REGEX.
Proof.
  unfold WINDOWS_LOCAL_LINK_REGEX. cbn [reads].
  repeat split; try reflexivity.
  - intros ch H. unfold winUnit. apply Bool.orb_true_iff. left.
    unfold driveLetter. 
    destruct ch as [[] [] [] [] [] [] [] []]; try discriminate H;
      reflexivity.
  - intros ch H. unfold winUnit. apply Bool.orb_true_iff. left. exact H.
Qed.

Lemma Matches_winPrefix x y :
  Matches winPrefix x y ->
  exists p,
    (In p [["."]; ["."; "."]; ["~"]]%char
     \/ exists l, driveLetter l = true /\ p = [l; ":"%char])
    /\ x = p ++ y.
Proof.
  intros H. unfold winPrefix in H.
  apply Matches_Group_inv, Matches_Disj_inv in H. destruct H as [H | H].
  - apply Matches_Seq_inv in H. destruct H as (x1 & Hl & Hcolon).
    apply Matches_Class_inv in Hl. destruct Hl as (l & -> & Hl).
    apply Matches_Char_inv in Hcolon. subst x1.
    exists [l; ":"%char]. split; [|reflexivity].
    right. exists l. split; [exact Hl | reflexivity].
  - apply Matches_Disj_inv in H. destruct H as [H | H].
    + apply Matches_Seq_inv in H. destruct H as (x1 & Hdot & Hopt).
      apply Matches_Char_inv in Hdot. subst x.
      apply Matches_optional in Hopt. destruct Hopt as [-> | Hopt].
      * exists ["."%char]. split; [left; simpl; auto | reflexivity].
      * apply Matches_Char_inv in Hopt. subst x1.
        exists ["."; "."]%char. split; [left; simpl; auto | reflexivity].
    + apply Matches_Char_inv in H. subst x.
      exists ["~"%char]. split; [left; simpl; auto | reflexivity].
Qed.

Lemma slashFollowed_content c t :
  winContent c = true -> slashFollowed (c :: t) = slashFollowed t.
Proof.
  intros Hc. simpl.
  destruct (Ascii.eqb_spec c "/") as [-> | _]; [discriminate Hc|].
  reflexivity.
Qed.

Lemma slashFollowed_run run t :
  Forall (fun c => winContent c = true) run ->
  slashFollowed (run ++ t) = slashFollowed t.
Proof.
  induction 1 as [|c run Hc _ IH]; [reflexivity|].
  rewrite <- app_comm_cons, slashFollowed_content by exact Hc. exact IH.
Qed.

Lemma slashFollowed_group sep ch t :
  sep = "\"%char \/ sep = "/"%char ->
  winContent ch = true ->
  slashFollowed (sep :: ch :: t) = slashFollowed t.
Proof.
  intros [-> | ->] Hch.
  - rewrite slashFollowed_content by reflexivity.
    now apply slashFollowed_content.
  - change (slashFollowed ("/"%char :: ch :: t))
      with (winContent ch && slashFollowed (ch :: t)).
    rewrite Hch. now apply slashFollowed_content.
Qed.

(** A run of content of the Windows pattern. *)
Lemma Matches_winContent min x y :
  Matches (Quant winContentGroup min None) x y ->
  exists w, x = w ++ y /\ Forall (fun c => winContent c = true) w.
Proof.
  apply (Matches_reads winContent). intros c Hc. exact Hc.
Qed.

(** One separator group of the Windows pattern: a separator, a content
    unit, and content units. *)
Lemma Matches_winSeparatorGroup x y :
  Matches winSeparatorGroup x y ->
  exists sep ch w,
    x = sep :: ch :: w ++ y
    /\ (sep = "\"%char \/ sep = "/"%char)
    /\ Forall (fun c => winContent c = true) (ch :: w).
Proof.
  intros H. unfold winSeparatorGroup in H.
  apply Matches_Group_inv, Matches_Seq_inv in H.
  destruct H as (y2 & Hsep & Hcontent).
  apply Matches_Group_inv, Matches_Disj_inv in Hsep.
  apply Matches_Plus_inv in Hcontent.
  destruct Hcontent as (y3 & Hfirst & Hrest).
  apply Matches_Group_inv, Matches_Class_inv in Hfirst.
  destruct Hfirst as (ch & -> & Hch).
  apply Matches_winContent in Hrest. destruct Hrest as (w & -> & Hw).
  destruct Hsep as [Hsep | Hsep]; apply Matches_Char_inv in Hsep; subst x;
    eexists; exists ch, w; (split; [reflexivity|]); split; auto.
Qed.

(** Any number of separator groups: each slash is followed by content. *)
Lemma Matches_winGroups r x y :
  Matches r x y ->
  forall mn, r = Quant winSeparatorGroup mn None ->
  exists w,
    x = w ++ y
    /\ slashFollowed w = true
    /\ Forall (fun c => winContent c = true \/ c = "/"%char) w.
Proof.
  induction 1 as [| | | | | | | | |r0 max0 x0
                  |r0 min0 max0 x0 y0 z0 Hmax Hfirst _ Hmore IH];
    intros mn Heq; try discriminate Heq.
  - exists []. repeat split. constructor.
  - inversion Heq; subst r0 min0 max0.
    destruct (IH (Nat.pred mn) eq_refl) as (w2 & -> & Hs2 & Hu2).
    apply Matches_winSeparatorGroup in Hfirst.
    destruct Hfirst as (sep & ch & w & -> & Hsep & Hrun).
    exists (sep :: ch :: w ++ w2). split; [|split].
    + simpl. now rewrite <- app_assoc.
    + inversion Hrun as [|? ? Hch Hw]; subst.
      rewrite slashFollowed_group by assumption.
      now rewrite slashFollowed_run.
    + constructor; [destruct Hsep as [-> | ->]; [left | right]; reflexivity|].
      change (ch :: w ++ w2) with ((ch :: w) ++ w2).
      apply Forall_app. split; [|exact Hu2].
      eapply Forall_impl; [|exact Hrun]. intros c Hc. now left.
Qed.

(** X11: every match of the Windows pattern is an optional prefix (a
    drive letter and a colon, [.], [..] or [~]), a backslash or a slash, a
    unit that the excluded-characters clause accepts, and then such units
    and slashes only, where every slash is followed by such a unit: a
    match holds no two slashes in a row and does not end with a slash.  (A
    backslash after the first separator is such a unit, so a match may
    end with one.) *)
Theorem windows_match_shape input m :
  exec WINDOWS_LOCAL_LINK_REGEX input = Some m ->
  exists prefix sep ch rest,
    list_ascii_of_string (match0 m) = prefix ++ sep :: ch :: rest
    /\ winPrefixes prefix
    /\ (sep = "\"%char \/ sep = "/"%char)
    /\ winContent ch = true
    /\ Forall (fun c => winContent c = true \/ c = "/"%char) rest
    /\ slashFollowed rest = true.
Proof.
  intros H. apply exec_sound in H.
  destruct H as (pre & w & post & _ & _ & -> & Hr).
  rewrite list_ascii_of_string_of_list_ascii.
  rewrite WINDOWS_LOCAL_LINK_REGEX_parts in Hr.
  apply Matches_Group_inv, Matches_Seq_inv in Hr.
  destruct Hr as (y0 & Hprefix & Hgroups).
  assert (Hp : exists prefix, winPrefixes prefix /\ w ++ post = prefix ++ y0).
  { apply Matches_optional in Hprefix. destruct Hprefix as [-> | Hprefix].
    - exists []. split; [left; now left | reflexivity].
    - apply Matches_winPrefix in Hprefix.
      destruct Hprefix as (p & [Hin | Hl] & ->); exists p;
        (split; [|reflexivity]).
      + left. simpl in Hin |- *. tauto.
      + now right. }
  destruct Hp as (prefix & Hin & Hw).
  apply Matches_Plus_inv in Hgroups.
  destruct Hgroups as (y1 & Hgroup & Hmore).
  apply Matches_winSeparatorGroup in Hgroup.
  destruct Hgroup as (sep & ch & w1 & -> & Hsep & Hrun).
  destruct (Matches_winGroups _ _ _ Hmore 0 eq_refl)
    as (w2 & -> & Hs2 & Hu2).
  inversion Hrun as [|? ? Hch Hw1]; subst.
  exists prefix, sep, ch, (w1 ++ w2).
  split; [|split; [exact Hin | split; [exact Hsep | split; [exact Hch|]]]].
  - apply (app_inv_tail post). rewrite Hw.
    rewrite <- !app_assoc. simpl. now rewrite <- !app_assoc.
  - split.
    + apply Forall_app. split; [|exact Hu2].
      eapply Forall_impl; [|exact Hw1]. intros c Hc. now left.
    + now rewrite slashFollowed_run.
Qed.

Lemma windows_match_shape_witness :
  exists prefix sep ch rest,
    list_ascii_of_string "c:\a/b\" = prefix ++ sep :: ch :: rest
    /\ winPrefixes prefix
    /\ (sep = "\"%char \/ sep = "/"%char)
    /\ winContent ch = true
    /\ Forall (fun c => winContent c = true \/ c = "/"%char) rest
    /\ slashFollowed rest = true.
Proof.
  apply (windows_match_shape "at c:\a/b\/ //x"
           {| index := 3; match0 := "c:\a/b\" |}).
  vm_compute. reflexivity.
Defined.

(** A match is part of the input. *)
Lemma match_units_in_input r input m ch :
  exec r input = Some m ->
  In ch (list_ascii_of_string (match0 m)) ->
  In ch (list_ascii_of_string input).
Proof.
  intros H Hin. apply exec_sound in H.
  destruct H as (pre & w & post & -> & _ & Hm & _).
  rewrite Hm, list_ascii_of_string_of_list_ascii in Hin.
  apply in_or_app. right. apply in_or_app. now left.
Qed.

(** X12: no separator, no link: on every platform a text without a slash
    and, on Windows, without a backslash either, has no match. *)
Theorem no_separator_no_match self input :
  ~ In "/"%char (list_ascii_of_string input) ->
  (_platform self = Windows ->
   ~ In "\"%char (list_ascii_of_string input)) ->
  exec (_localLinkRegex self) input = None.
Proof.
  intros Hslash Hback. unfold _localLinkRegex.
  destruct (Platform_eqb (_platform self) Windows) eqn:Hp.
  - apply Platform_eqb_eq in Hp. specialize (Hback Hp).
    destruct (exec WINDOWS_LOCAL_LINK_REGEX input) as [m|] eqn:E;
      [|reflexivity].
    exfalso. destruct (windows_match_has_separator_and_content _ _ E)
      as (prefix & sep & ch & rest & Hm & Hsep & _).
    assert (Hin : In sep (list_ascii_of_string input)).
    { apply (match_units_in_input _ _ _ _ E). rewrite Hm.
      apply in_or_app. right. now left. }
    destruct Hsep as [-> | ->]; auto.
  - destruct (exec UNIX_LIKE_LOCAL_LINK_REGEX input) as [m|] eqn:E;
      [|reflexivity].
    exfalso. destruct (unix_match_has_separator _ _ E) as (prefix & rest & Hm).
    apply Hslash. apply (match_units_in_input _ _ _ _ E). rewrite Hm.
    apply in_or_app. right. now left.
Qed.

Lemma no_separator_no_match_witness :
  exec (_localLinkRegex (handlerOn Linux noWorkspace)) "C:\Users\u ~ .. a+b"
  = None.
Proof.
  apply (no_separator_no_match (handlerOn Linux noWorkspace)
           "C:\Users\u ~ .. a+b").
  - simpl. intuition discriminate.
  - intros H. discriminate H.
Defined.

Lemma unixUnit_not_excludedEverywhere ch :
  unixUnit ch = true -> excludedEverywhere ch = false.
Proof.
  destruct ch as [[] [] [] [] [] [] [] []]; vm_compute;
    intros H; try reflexivity; discriminate H.
Qed.

Lemma winUnit_not_excludedEverywhere ch :
  winUnit ch = true -> excludedEverywhere ch = false.
Proof.
  destruct ch as [[] [] [] [] [] [] [] []]; vm_compute;
    intros H; try reflexivity; discriminate H.
Qed.

(** X13: on every platform, for every input, a match holds no NUL, no
    white space and none of the marks [$], [*], the parentheses, the
    brackets, the quotes and the semicolon, escaped or not. *)
Theorem local_link_match_never_holds self input m ch :
  exec (_localLinkRegex self) input = Some m ->
  In ch (list_ascii_of_string (match0 m)) ->
  excludedEverywhere ch = false.
Proof.
  unfold _localLinkRegex. intros H Hin.
  destruct (Platform_eqb (_platform self) Windows).
  - apply winUnit_not_excludedEverywhere.
    apply exec_sound in H.
    destruct H as (pre & w & post & _ & _ & Hm & Hr).
    rewrite Hm, list_ascii_of_string_of_list_ascii in Hin.
    destruct (Matches_reads winUnit _ _ _
                WINDOWS_LOCAL_LINK_REGEX_reads Hr) as (w' & Hw & Hall).
    apply app_inv_tail in Hw. subst w'.
    rewrite Forall_forall in Hall. now apply Hall.
  - apply unixUnit_not_excludedEverywhere.
    pose proof (unix_match_units _ _ H) as Hall.
    rewrite Forall_forall in Hall. now apply Hall.
Qed.

Lemma local_link_match_never_holds_witness :
  excludedEverywhere "a" = false.
Proof.
  apply (local_link_match_never_holds (handlerOn Linux noWorkspace)
           "ls /a (b)" {| index := 3; match0 := "/a" |} "a"%char).
  - vm_compute. reflexivity.
  - simpl. auto.
Defined.

(** * The tooltip listeners *)

Lemma mouseenter_fold h el ls : forall ts acc,
  fold_left (Tooltip.mouseenterListener h el) ls (ts, acc)
  = ({| Tooltip.now := Tooltip.now ts;
        Tooltip.nextTimerId := Tooltip.nextTimerId ts + List.length ls;
        Tooltip.pending :=
          Tooltip.pending ts
          ++ Tooltip.batch h el (Tooltip.now ts) (Tooltip.nextTimerId ts)
               (List.length ls) |},
     acc ++ map Some (List.seq (Tooltip.nextTimerId ts) (List.length ls))).
Proof.
  induction ls as [|l ls IH]; intros ts acc.
  - simpl. rewrite Nat.add_0_r, !app_nil_r. now destruct ts.
  - simpl fold_left. unfold Tooltip.mouseenterListener at 2.
    simpl fst. simpl snd. unfold Tooltip.setTimeout. rewrite IH.
    unfold Tooltip.batch. simpl. rewrite <- !app_assoc. simpl.
    repeat f_equal. lia.
Qed.

Lemma mouseleave_fold ls : forall ts cs,
  fold_left Tooltip.mouseleaveListener ls (ts, cs)
  = (fold_left Tooltip.clearTimeout ls ts,
     cs ++ repeat Tooltip.closeMessage (List.length ls)).
Proof.
  induction ls as [|l ls IH]; intros ts cs.
  - simpl. now rewrite app_nil_r.
  - simpl fold_left. unfold Tooltip.mouseleaveListener at 2.
    simpl fst. simpl snd. rewrite IH. simpl.
    now rewrite <- app_assoc.
Qed.


(** Clearing the timers of the listeners keeps the clock and leaves the
    timers that no listener holds. *)
Lemma clearTimeout_fold ls : forall ts,
  fold_left Tooltip.clearTimeout ls ts
  = {| Tooltip.now := Tooltip.now ts;
       Tooltip.nextTimerId := Tooltip.nextTimerId ts;
       Tooltip.pending :=
         filter (fun t => negb (Tooltip.holds ls t)) (Tooltip.pending ts) |}.
Proof.
  induction ls as [|l ls IH]; intros ts.
  - simpl. destruct ts as [n i P]. simpl. f_equal.
    induction P as [|t P IHP]; [reflexivity|]. simpl. now rewrite <- IHP.
  - simpl fold_left. rewrite IH. destruct l as [i|]; simpl.
    + f_equal. induction (Tooltip.pending ts) as [|t P IHP];
        [reflexivity|].
      simpl. destruct (Tooltip.timerId t =? i)%nat; simpl;
        [exact IHP | now rewrite IHP].
    + reflexivity.
Qed.

Lemma holds_batch h el time first k t :
  In t (Tooltip.batch h el time first k) ->
  Tooltip.holds (map Some (List.seq first k)) t = true.
Proof.
  unfold Tooltip.batch, Tooltip.holds. intros Hin.
  apply in_map_iff in Hin. destruct Hin as (id & <- & Hid).
  apply existsb_exists. exists (Some id). split.
  - now apply in_map.
  - simpl. apply Nat.eqb_refl.
Qed.

Lemma holds_other_batch h el time first k first' k' t :
  first + k <= first' ->
  In t (Tooltip.batch h el time first k) ->
  Tooltip.holds (map Some (List.seq first' k')) t = false.
Proof.
  unfold Tooltip.batch, Tooltip.holds. intros Hle Hin.
  apply in_map_iff in Hin. destruct Hin as (id & <- & Hid).
  apply in_seq in Hid.
  destruct (existsb _ _) eqn:E; [|reflexivity].
  apply existsb_exists in E. destruct E as (l & Hl & Heq).
  apply in_map_iff in Hl. destruct Hl as (j & <- & Hj).
  apply in_seq in Hj. simpl in Heq. apply Nat.eqb_eq in Heq. lia.
Qed.

Lemma filter_none {A} (p : A -> bool) (l : list A) :
  (forall x, In x l -> p x = false) -> filter p l = [].
Proof.
  induction l as [|x l IH]; intros H; [reflexivity|].
  simpl. rewrite (H x) by now left. apply IH. intros y Hy. apply H. now right.
Qed.

Lemma filter_all {A} (p : A -> bool) (l : list A) :
  (forall x, In x l -> p x = true) -> filter p l = l.
Proof.
  induction l as [|x l IH]; intros H; [reflexivity|].
  simpl. rewrite (H x) by now left. f_equal. apply IH.
  intros y Hy. apply H. now right.
Qed.

(** Time passing when no pending timer becomes due. *)
Lemma elapse_none_due ms s :
  (forall t, In t (Tooltip.pending (Tooltip.timers s)) ->
             Tooltip.now (Tooltip.timers s) + ms < Tooltip.due t) ->
  Tooltip.elapse ms s
  = {| Tooltip.element := Tooltip.element s;
       Tooltip.timers :=
         {| Tooltip.now := Tooltip.now (Tooltip.timers s) + ms;
            Tooltip.nextTimerId := Tooltip.nextTimerId (Tooltip.timers s);
            Tooltip.pending := Tooltip.pending (Tooltip.timers s) |};
       Tooltip.listeners := Tooltip.listeners s;
       Tooltip.calls := Tooltip.calls s |}.
Proof.
  intros Hdue. unfold Tooltip.elapse, Tooltip.advance.
  rewrite filter_all, filter_none.
  - simpl. now rewrite app_nil_r.
  - intros t Ht. unfold Tooltip.isDue. apply Nat.leb_gt. now apply Hdue.
  - intros t Ht. unfold Tooltip.isDue. apply Bool.negb_true_iff.
    apply Nat.leb_gt. now apply Hdue.
Qed.

(** Time passing when every pending timer becomes due. *)
Lemma elapse_all_due ms s :
  (forall t, In t (Tooltip.pending (Tooltip.timers s)) ->
             Tooltip.due t <= Tooltip.now (Tooltip.timers s) + ms) ->
  Tooltip.elapse ms s
  = {| Tooltip.element := Tooltip.element s;
       Tooltip.timers :=
         {| Tooltip.now := Tooltip.now (Tooltip.timers s) + ms;
            Tooltip.nextTimerId := Tooltip.nextTimerId (Tooltip.timers s);
            Tooltip.pending := [] |};
       Tooltip.listeners := Tooltip.listeners s;
       Tooltip.calls :=
         Tooltip.calls s
         ++ flat_map Tooltip.callback (Tooltip.pending (Tooltip.timers s)) |}.
Proof.
  intros Hdue. unfold Tooltip.elapse, Tooltip.advance.
  rewrite (filter_all (Tooltip.isDue _)), filter_none.
  - reflexivity.
  - intros t Ht. unfold Tooltip.isDue. apply Bool.negb_false_iff.
    apply Nat.leb_le. now apply Hdue.
  - intros t Ht. unfold Tooltip.isDue. apply Nat.leb_le. now apply Hdue.
Qed.

Lemma run_app h s es1 es2 :
  Tooltip.run h s (es1 ++ es2) = Tooltip.run h (Tooltip.run h s es1) es2.
Proof. unfold Tooltip.run. apply fold_left_app. Qed.

(** Waiting while no pending timer becomes due changes the clock only. *)
Lemma run_waits_none_due h waits : forall s,
  (forall t, In t (Tooltip.pending (Tooltip.timers s)) ->
             Tooltip.now (Tooltip.timers s) + Tooltip.total waits
             < Tooltip.due t) ->
  Tooltip.run h s (map Tooltip.Elapse waits)
  = {| Tooltip.element := Tooltip.element s;
       Tooltip.timers :=
         {| Tooltip.now :=
              Tooltip.now (Tooltip.timers s) + Tooltip.total waits;
            Tooltip.nextTimerId := Tooltip.nextTimerId (Tooltip.timers s);
            Tooltip.pending := Tooltip.pending (Tooltip.timers s) |};
       Tooltip.listeners := Tooltip.listeners s;
       Tooltip.calls := Tooltip.calls s |}.
Proof.
  induction waits as [|ms waits IH]; intros s Hdue.
  - simpl. rewrite Nat.add_0_r. destruct s as [el [n i P] ls cs]. reflexivity.
  - change (Tooltip.total (ms :: waits)) with (ms + Tooltip.total waits) in *.
    simpl map. unfold Tooltip.run. simpl fold_left.
    fold (Tooltip.run h (Tooltip.elapse ms s) (map Tooltip.Elapse waits)).
    rewrite elapse_none_due by (intros t Ht; specialize (Hdue t Ht); lia).
    rewrite IH; cbn [Tooltip.element Tooltip.timers Tooltip.listeners
                     Tooltip.calls Tooltip.now Tooltip.nextTimerId
                     Tooltip.pending].
    + now rewrite Nat.add_assoc.
    + intros t Ht. specialize (Hdue t Ht). lia.
Qed.

(** Waiting for timers that are all due at the same time [d], not yet
    reached: they run once, together, in the wait that reaches [d], and
    not at all if the waits end before. *)
Lemma run_waits_same_due h d waits : forall s,
  (forall t, In t (Tooltip.pending (Tooltip.timers s)) -> Tooltip.due t = d) ->
  Tooltip.now (Tooltip.timers s) < d ->
  Tooltip.run h s (map Tooltip.Elapse waits)
  = {| Tooltip.element := Tooltip.element s;
       Tooltip.timers :=
         {| Tooltip.now :=
              Tooltip.now (Tooltip.timers s) + Tooltip.total waits;
            Tooltip.nextTimerId := Tooltip.nextTimerId (Tooltip.timers s);
            Tooltip.pending :=
              if (d <=? Tooltip.now (Tooltip.timers s)
                        + Tooltip.total waits)%nat
              then [] else Tooltip.pending (Tooltip.timers s) |};
       Tooltip.listeners := Tooltip.listeners s;
       Tooltip.calls :=
         Tooltip.calls s
         ++ (if (d <=? Tooltip.now (Tooltip.timers s)
                       + Tooltip.total waits)%nat
             then flat_map Tooltip.callback
                    (Tooltip.pending (Tooltip.timers s))
             else []) |}.
Proof.
  induction waits as [|ms waits IH]; intros s Hdue Hnow.
  - simpl. rewrite Nat.add_0_r.
    destruct (Nat.leb_spec d (Tooltip.now (Tooltip.timers s))); [lia|].
    rewrite app_nil_r. destruct s as [el [n i P] ls cs]. reflexivity.
  - simpl map. unfold Tooltip.run. simpl fold_left.
    fold (Tooltip.run h (Tooltip.elapse ms s) (map Tooltip.Elapse waits)).
    change (Tooltip.total (ms :: waits)) with (ms + Tooltip.total waits).
    rewrite Nat.add_assoc.
    destruct (Nat.leb_spec d (Tooltip.now (Tooltip.timers s) + ms))
      as [Hreach | Hbefore].
    + rewrite elapse_all_due
        by (intros t Ht; rewrite (Hdue t Ht); exact Hreach).
      rewrite run_waits_none_due by (simpl; intros t []).
      cbn [Tooltip.element Tooltip.timers Tooltip.listeners
           Tooltip.calls Tooltip.now Tooltip.nextTimerId Tooltip.pending].
      destruct (Nat.leb_spec d
                  (Tooltip.now (Tooltip.timers s) + ms
                   + Tooltip.total waits)); [reflexivity | lia].
    + rewrite elapse_none_due
        by (intros t Ht; rewrite (Hdue t Ht); exact Hbefore).
      rewrite IH;
        cbn [Tooltip.element Tooltip.timers Tooltip.listeners
             Tooltip.calls Tooltip.now Tooltip.nextTimerId Tooltip.pending];
        [reflexivity | exact Hdue | exact Hbefore].
Qed.

Lemma batch_due h el time first k t :
  In t (Tooltip.batch h el time first k) -> Tooltip.due t = time + 500.
Proof.
  unfold Tooltip.batch. intros Hin. apply in_map_iff in Hin.
  destruct Hin as (id & <- & _). reflexivity.
Qed.

Lemma batch_callbacks h el time first k :
  flat_map Tooltip.callback (Tooltip.batch h el time first k)
  = repeat (Tooltip.showMessage (Tooltip.offsetLeft el)
              (Tooltip.offsetTop el) (Tooltip.message h)) k.
Proof.
  unfold Tooltip.batch. revert first.
  induction k as [|k IH]; intros first; [reflexivity|].
  simpl. now rewrite IH.
Qed.

(** The state after a [mouseenter]. *)
Lemma mouseenter_run h s :
  Tooltip.mouseenter h s
  = {| Tooltip.element := Tooltip.element s;
       Tooltip.timers :=
         {| Tooltip.now := Tooltip.now (Tooltip.timers s);
            Tooltip.nextTimerId :=
              Tooltip.nextTimerId (Tooltip.timers s)
              + List.length (Tooltip.listeners s);
            Tooltip.pending :=
              Tooltip.pending (Tooltip.timers s)
              ++ Tooltip.batch h (Tooltip.element s)
                   (Tooltip.now (Tooltip.timers s))
                   (Tooltip.nextTimerId (Tooltip.timers s))
                   (List.length (Tooltip.listeners s)) |};
       Tooltip.listeners :=
         map Some (List.seq (Tooltip.nextTimerId (Tooltip.timers s))
                     (List.length (Tooltip.listeners s)));
       Tooltip.calls := Tooltip.calls s |}.
Proof. unfold Tooltip.mouseenter. rewrite mouseenter_fold. reflexivity. Qed.

(** The state after a [mouseleave]. *)
Lemma mouseleave_run s :
  Tooltip.mouseleave s
  = {| Tooltip.element := Tooltip.element s;
       Tooltip.timers :=
         {| Tooltip.now := Tooltip.now (Tooltip.timers s);
            Tooltip.nextTimerId := Tooltip.nextTimerId (Tooltip.timers s);
            Tooltip.pending :=
              filter (fun t => negb (Tooltip.holds (Tooltip.listeners s) t))
                (Tooltip.pending (Tooltip.timers s)) |};
       Tooltip.listeners := Tooltip.listeners s;
       Tooltip.calls :=
         Tooltip.calls s
         ++ repeat Tooltip.closeMessage (List.length (Tooltip.listeners s)) |}.
Proof.
  unfold Tooltip.mouseleave. rewrite mouseleave_fold, clearTimeout_fold.
  reflexivity.
Qed.

Lemma run_cons h s e es :
  Tooltip.run h s (e :: es) = Tooltip.run h (Tooltip.step h s e) es.
Proof. reflexivity. Qed.

Ltac tooltip_simpl :=
  cbn [Tooltip.element Tooltip.timers Tooltip.listeners Tooltip.calls
       Tooltip.now Tooltip.nextTimerId Tooltip.pending Tooltip.step].

(** X14: a hover on an element to which the listeners were added [k]
    times, starting with no timer pending.  If the pointer stays 500 ms or
    more, the message is shown [k] times, once per added pair, at the
    offsets of the element and with the text of the host platform, when
    the 500 ms are reached and not again; if it leaves before, no message
    is shown, then or later.  Leaving closes the message [k] times and
    leaves no timer pending, so the next hover starts the same way. *)
Theorem hover_shows_message_after_delay h s waits later :
  Tooltip.pending (Tooltip.timers s) = [] ->
  let k := List.length (Tooltip.listeners s) in
  let s' :=
    Tooltip.run h s
      (Tooltip.MouseEnter :: map Tooltip.Elapse waits
       ++ Tooltip.MouseLeave :: map Tooltip.Elapse later) in
  Tooltip.calls s'
  = Tooltip.calls s
    ++ (if (500 <=? Tooltip.total waits)%nat
        then repeat (Tooltip.showMessage
                       (Tooltip.offsetLeft (Tooltip.element s))
                       (Tooltip.offsetTop (Tooltip.element s))
                       (Tooltip.message h)) k
        else [])
    ++ repeat Tooltip.closeMessage k
  /\ Tooltip.pending (Tooltip.timers s') = []
  /\ List.length (Tooltip.listeners s') = k.
Proof.
  intros Hidle k s'. subst s'.
  rewrite run_cons, run_app, run_cons. tooltip_simpl.
  set (n := Tooltip.now (Tooltip.timers s)).
  set (first := Tooltip.nextTimerId (Tooltip.timers s)).
  set (el := Tooltip.element s).
  assert (Hentered :
    Tooltip.run h (Tooltip.mouseenter h s) (map Tooltip.Elapse waits)
    = {| Tooltip.element := el;
         Tooltip.timers :=
           {| Tooltip.now := n + Tooltip.total waits;
              Tooltip.nextTimerId := first + k;
              Tooltip.pending :=
                if (500 <=? Tooltip.total waits)%nat then []
                else Tooltip.batch h el n first k |};
         Tooltip.listeners := map Some (List.seq first k);
         Tooltip.calls :=
           Tooltip.calls s
           ++ (if (500 <=? Tooltip.total waits)%nat
               then repeat (Tooltip.showMessage (Tooltip.offsetLeft el)
                              (Tooltip.offsetTop el) (Tooltip.message h)) k
               else []) |}).
  { rewrite mouseenter_run, Hidle, app_nil_l. fold n first el k.
    rewrite (run_waits_same_due h (n + 500));
      [| tooltip_simpl; intros t Ht; now apply batch_due in Ht
       | tooltip_simpl; lia].
    tooltip_simpl.
    replace (n + 500 <=? n + Tooltip.total waits)%nat
      with (500 <=? Tooltip.total waits)%nat
      by (destruct (Nat.leb_spec 500 (Tooltip.total waits));
          symmetry; [apply Nat.leb_le | apply Nat.leb_gt]; lia).
    now rewrite batch_callbacks. }
  rewrite Hentered, mouseleave_run. tooltip_simpl.
  rewrite length_map, length_seq.
  assert (Hcleared :
    filter (fun t => negb (Tooltip.holds (map Some (List.seq first k)) t))
      (if (500 <=? Tooltip.total waits)%nat then []
       else Tooltip.batch h el n first k) = []).
  { destruct (500 <=? Tooltip.total waits)%nat; [reflexivity|].
    apply filter_none. intros t Ht.
    apply Bool.negb_false_iff. eapply holds_batch. exact Ht. }
  rewrite Hcleared.
  rewrite run_waits_none_due by (tooltip_simpl; intros t []).
  tooltip_simpl. rewrite <- app_assoc, length_map, length_seq.
  repeat split.
Qed.

Lemma hover_shows_message_after_delay_witness :
  Tooltip.calls
    (Tooltip.run {| Tooltip.isMacintosh := false;
                    Tooltip.localize := fun _ text => text |}
       (Tooltip._addTooltipEventListeners
          (Tooltip.fresh {| Tooltip.offsetLeft := 7;
                            Tooltip.offsetTop := 3 |} 0))
       (Tooltip.MouseEnter :: map Tooltip.Elapse [200; 300; 100]
        ++ Tooltip.MouseLeave :: map Tooltip.Elapse [1000]))
  = [Tooltip.showMessage 7 3 "Ctrl + click to follow link";
     Tooltip.closeMessage].
Proof.
  apply (hover_shows_message_after_delay
           {| Tooltip.isMacintosh := false;
              Tooltip.localize := fun _ text => text |}
           (Tooltip._addTooltipEventListeners
              (Tooltip.fresh {| Tooltip.offsetLeft := 7;
                                Tooltip.offsetTop := 3 |} 0))
           [200; 300; 100] [1000]).
  reflexivity.
Defined.

(** X15: a second [mouseenter] without a [mouseleave] in between
    overwrites [timeout]: the timers of the first are never cleared.  When
    the pointer then leaves before the first 500 ms are over, the message
    is closed, and shown all the same once those 500 ms are reached,
    after the pointer has left. *)
Theorem second_enter_keeps_first_timer h s waits1 waits2 waits3 :
  Tooltip.pending (Tooltip.timers s) = [] ->
  Tooltip.total waits1 + Tooltip.total waits2 < 500 ->
  500 <= Tooltip.total waits1 + Tooltip.total waits2 + Tooltip.total waits3 ->
  let k := List.length (Tooltip.listeners s) in
  Tooltip.calls
    (Tooltip.run h s
       (Tooltip.MouseEnter :: map Tooltip.Elapse waits1
        ++ Tooltip.MouseEnter :: map Tooltip.Elapse waits2
        ++ Tooltip.MouseLeave :: map Tooltip.Elapse waits3))
  = Tooltip.calls s
    ++ repeat Tooltip.closeMessage k
    ++ repeat (Tooltip.showMessage
                 (Tooltip.offsetLeft (Tooltip.element s))
                 (Tooltip.offsetTop (Tooltip.element s))
                 (Tooltip.message h)) k.
Proof.
  intros Hidle Hshort Hlong k.
  rewrite run_cons, run_app, run_cons, run_app, run_cons. tooltip_simpl.
  set (n := Tooltip.now (Tooltip.timers s)).
  set (first := Tooltip.nextTimerId (Tooltip.timers s)).
  set (el := Tooltip.element s).
  set (t1 := Tooltip.total waits1) in *.
  set (t2 := Tooltip.total waits2) in *.
  set (t3 := Tooltip.total waits3) in *.
  assert (H1 :
    Tooltip.run h (Tooltip.mouseenter h s) (map Tooltip.Elapse waits1)
    = {| Tooltip.element := el;
         Tooltip.timers :=
           {| Tooltip.now := n + t1;
              Tooltip.nextTimerId := first + k;
              Tooltip.pending := Tooltip.batch h el n first k |};
         Tooltip.listeners := map Some (List.seq first k);
         Tooltip.calls := Tooltip.calls s |}).
  { rewrite mouseenter_run, Hidle, app_nil_l. fold n first el k.
    rewrite run_waits_none_due; [reflexivity|].
    tooltip_simpl. intros t Ht. rewrite (batch_due _ _ _ _ _ _ Ht).
    fold t1. lia. }
  rewrite H1. clear H1.
  assert (H2 :
    Tooltip.run h
      (Tooltip.mouseenter h
         {| Tooltip.element := el;
            Tooltip.timers :=
              {| Tooltip.now := n + t1;
                 Tooltip.nextTimerId := first + k;
                 Tooltip.pending := Tooltip.batch h el n first k |};
            Tooltip.listeners := map Some (List.seq first k);
            Tooltip.calls := Tooltip.calls s |})
      (map Tooltip.Elapse waits2)
    = {| Tooltip.element := el;
         Tooltip.timers :=
           {| Tooltip.now := n + t1 + t2;
              Tooltip.nextTimerId := first + k + k;
              Tooltip.pending :=
                Tooltip.batch h el n first k
                ++ Tooltip.batch h el (n + t1) (first + k) k |};
         Tooltip.listeners := map Some (List.seq (first + k) k);
         Tooltip.calls := Tooltip.calls s |}).
  { rewrite mouseenter_run. tooltip_simpl. rewrite length_map, length_seq.
    rewrite run_waits_none_due; [reflexivity|].
    tooltip_simpl. intros t Ht. fold t2. apply in_app_or in Ht.
    destruct Ht as [Ht | Ht]; rewrite (batch_due _ _ _ _ _ _ Ht); lia. }
  rewrite H2. clear H2.
  rewrite mouseleave_run. tooltip_simpl.
  rewrite length_map, length_seq, filter_app.
  rewrite (filter_all _ (Tooltip.batch h el n first k))
    by (intros t Ht; apply Bool.negb_true_iff;
        now apply (holds_other_batch h el n first k)).
  rewrite (filter_none _ (Tooltip.batch h el (n + t1) (first + k) k))
    by (intros t Ht; apply Bool.negb_false_iff;
        now apply (holds_batch h el (n + t1))).
  rewrite app_nil_r.
  rewrite (run_waits_same_due h (n + 500));
    [| tooltip_simpl; intros t Ht; now apply batch_due in Ht
     | tooltip_simpl; lia].
  tooltip_simpl. fold t3.
  destruct (Nat.leb_spec (n + 500) (n + t1 + t2 + t3)); [|lia].
  now rewrite batch_callbacks, <- app_assoc.
Qed.

Lemma second_enter_keeps_first_timer_witness :
  Tooltip.calls
    (Tooltip.run {| Tooltip.isMacintosh := true;
                    Tooltip.localize := fun _ text => text |}
       (Tooltip._addTooltipEventListeners
          (Tooltip.fresh {| Tooltip.offsetLeft := 7;
                            Tooltip.offsetTop := 3 |} 0))
       (Tooltip.MouseEnter :: map Tooltip.Elapse [100]
        ++ Tooltip.MouseEnter :: map Tooltip.Elapse [100]
        ++ Tooltip.MouseLeave :: map Tooltip.Elapse [400]))
  = [Tooltip.closeMessage;
     Tooltip.showMessage 7 3 "Cmd + click to follow link"].
Proof.
  apply (second_enter_keeps_first_timer
           {| Tooltip.isMacintosh := true;
              Tooltip.localize := fun _ text => text |}
           (Tooltip._addTooltipEventListeners
              (Tooltip.fresh {| Tooltip.offsetLeft := 7;
                                Tooltip.offsetTop := 3 |} 0))
           [100] [100] [400]).
  - reflexivity.
  - simpl. lia.
  - simpl. lia.
Defined.
